(** * OPC UA example programs: a shallow embedding

    The repository is a set of annotated example programs written against
    the open62541pp client/server library.  The library itself is not part
    of the sources; what the examples define themselves are method
    handlers, three plugin subclasses, one type converter, a signal
    handler and the [main] functions.  Each of them is embedded below, one
    module per example file, over a small model of the library vocabulary
    the examples use (variants, spans, sessions, status codes). *)

From Stdlib Require Import ZArith Bool.
From stdpp Require Import base option list gmap strings.

Open Scope Z_scope.

(** ** Library vocabulary used by the examples *)

Module UA.

(** [opcua::StatusCode] wraps a 32-bit code; good is zero. *)
Definition StatusCode := Z.
Definition UA_STATUSCODE_GOOD : StatusCode := 0.

(** Exceptions the examples can meet: [opcua::BadStatus] (thrown by
    services), [opcua::BadVariantAccess] (a variant read at the wrong
    type) and [std::out_of_range] (from [Span::at]).  All three derive
    from [std::exception]. *)
Inductive exn :=
| BadStatus (code : StatusCode)
| BadVariantAccess
| out_of_range.

#[global] Instance exn_eq_dec : EqDecision exn.
Proof. solve_decision. Defined.

Definition isBadStatus (e : exn) : bool :=
  match e with BadStatus _ => true | _ => false end.

(** The result of running a piece of C++: it returns, it throws, or its
    behaviour is undefined (signed overflow). *)
Inductive outcome (A : Type) : Type :=
| Returns (a : A)
| Throws (e : exn)
| Undefined.
Arguments Returns {A} a.
Arguments Throws {A} e.
Arguments Undefined {A}.

#[global] Instance outcome_ret : MRet outcome := fun A a => Returns a.
#[global] Instance outcome_bind : MBind outcome := fun A B f m =>
  match m with
  | Returns a => f a
  | Throws e => Throws e
  | Undefined => Undefined
  end.

(** [int32_t]: a value in [-2^31, 2^31).  The sum of two [int32_t] is
    computed in [int]; a sum outside the range is undefined behaviour. *)
Definition INT32_MIN : Z := - 2 ^ 31.
Definition INT32_MAX : Z := 2 ^ 31 - 1.

Definition is_int32 (z : Z) : bool := (INT32_MIN <=? z) && (z <=? INT32_MAX).

Definition int32_add (a b : Z) : outcome Z :=
  if is_int32 (a + b) then Returns (a + b) else Undefined.

(** Two's-complement reduction to 32 bits, for comparison. *)
Definition wrap32 (z : Z) : Z := (z + 2 ^ 31) mod 2 ^ 32 - 2 ^ 31.

(** [opcua::Variant]: a tagged container; the cases are the types the
    examples put into variants. *)
Inductive Variant :=
| VEmpty
| VBoolean (b : bool)
| VByte (b : Z)
| VInt32 (z : Z)
| VDateTime (t : Z)
| VString (s : string)
| VInt32Array (l : list Z).

#[global] Instance Variant_eq_dec : EqDecision Variant.
Proof. solve_decision. Defined.

(** [Variant::scalar<T>()] and [Variant::array<T>()]. *)
Definition scalar_bool (v : Variant) : outcome bool :=
  match v with VBoolean b => Returns b | _ => Throws BadVariantAccess end.

Definition scalar_int32 (v : Variant) : outcome Z :=
  match v with VInt32 z => Returns z | _ => Throws BadVariantAccess end.

Definition scalar_String (v : Variant) : outcome string :=
  match v with VString s => Returns s | _ => Throws BadVariantAccess end.

Definition array_int32 (v : Variant) : outcome (list Z) :=
  match v with VInt32Array l => Returns l | _ => Throws BadVariantAccess end.

(** [Span::at(i)]: bounds-checked element access. *)
Definition span_at {A} (s : list A) (i : nat) : outcome A :=
  match s !! i with
  | Some x => Returns x
  | None => Throws out_of_range
  end.

(** [span.at(i) = v] on a mutable span. *)
Definition span_assign {A} (s : list A) (i : nat) (v : A) : outcome (list A) :=
  if decide (i < length s)%nat then Returns (<[i := v]> s) else Throws out_of_range.

(** [std::transform] with a unary operation that may hit undefined
    behaviour: elements are processed front to back. *)
Fixpoint transform {A B} (f : A -> outcome B) (l : list A) : outcome (list B) :=
  match l with
  | [] => Returns []
  | x :: xs => y ← f x; ys ← transform f xs; mret (y :: ys)
  end.

(** [opcua::NodeId]: namespace index and a numeric or string
    identifier, as the examples write them ([{1, 1000}], [{1, "Point"}]). *)
Inductive NodeId :=
| NodeIdNumeric (ns : Z) (id : Z)
| NodeIdString (ns : Z) (name : string).

#[global] Instance NodeId_eq_dec : EqDecision NodeId.
Proof. solve_decision. Defined.

#[global] Instance NodeId_countable : Countable NodeId :=
  inj_countable'
    (fun n => match n with
              | NodeIdNumeric ns id => inl (ns, id)
              | NodeIdString ns name => inr (ns, name)
              end)
    (fun x => match x with
              | inl (ns, id) => NodeIdNumeric ns id
              | inr (ns, name) => NodeIdString ns name
              end)
    (fun n => match n with
              | NodeIdNumeric _ _ => eq_refl
              | NodeIdString _ _ => eq_refl
              end).

(** [opcua::QualifiedName]: namespace index and name. *)
Definition QualifiedName : Type := Z * string.

(** [opcua::DateTime], a 64-bit tick count. *)
Definition DateTime := Z.

(** [opcua::Session]: a server-side session with its attribute store.
    [setSessionAttribute] stores under a key; [getSessionAttribute]
    reports a missing key with a bad status. *)
Record Session := { sessionId : NodeId; attributes : gmap (Z * string) Variant }.

Definition UA_STATUSCODE_BADNOTFOUND : StatusCode := 0x803E0000.

Definition setSessionAttribute (s : Session) (key : QualifiedName) (v : Variant)
  : Session :=
  {| sessionId := sessionId s; attributes := <[key := v]> (attributes s) |}.

Definition getSessionAttribute (s : Session) (key : QualifiedName)
  : outcome Variant :=
  match attributes s !! key with
  | Some v => Returns v
  | None => Throws (BadStatus UA_STATUSCODE_BADNOTFOUND)
  end.

(** [opcua::DataValue]: a variant with optional timestamps. *)
Record DataValue := {
  value : Variant;
  sourceTimestamp : option DateTime;
  serverTimestamp : option DateTime
}.

Definition setValue (dv : DataValue) (v : Variant) : DataValue :=
  {| value := v;
     sourceTimestamp := sourceTimestamp dv;
     serverTimestamp := serverTimestamp dv |}.

Definition setSourceTimestamp (dv : DataValue) (t : DateTime) : DataValue :=
  {| value := value dv;
     sourceTimestamp := Some t;
     serverTimestamp := serverTimestamp dv |}.

(** [opcua::NumericRange], passed by pointer and unused by the examples. *)
Definition NumericRange : Type := list (Z * Z).

(** [opcua::Result<T>]: a value or a bad status code. *)
Inductive Result (A : Type) : Type :=
| ResultValue (a : A)
| ResultBad (code : StatusCode).
Arguments ResultValue {A} a.
Arguments ResultBad {A} code.

Definition hasValue {A} (r : Result A) : bool :=
  match r with ResultValue _ => true | ResultBad _ => false end.

End UA.

(** ** examples/method/server_method_annotated.cpp *)

Module ServerMethod.
Import UA.

(** The two spans a method callback receives.  [input] is a span of
    const variants, [output] a span the callback assigns into. *)
Record CallFrame := { input : list Variant; output : list Variant }.

Definition MethodCallback := CallFrame -> outcome CallFrame.

(** Handler registered under the name "Greet". *)
Definition Greet : MethodCallback := fun fr =>
  arg0 ← span_at (input fr) 0;
  name ← scalar_String arg0;
  let greeting := "Hello " +:+ name in
  out ← span_assign (output fr) 0 (VString greeting);
  mret {| input := input fr; output := out |}.

(** Handler registered under the name "IncInt32ArrayValues". *)
Definition IncInt32ArrayValues : MethodCallback := fun fr =>
  arg0 ← span_at (input fr) 0;
  values ← array_int32 arg0;
  arg1 ← span_at (input fr) 1;
  delta ← scalar_int32 arg1;
  incremented ← transform (fun v => int32_add v delta) values;
  out ← span_assign (output fr) 0 (VInt32Array incremented);
  mret {| input := input fr; output := out |}.

(** A callback is a pass-through when it computes nothing itself: every
    variant found in the output span after the call was already present
    in one of the two spans before the call. *)
Definition pass_through (h : MethodCallback) : Prop :=
  forall fr fr', h fr = Returns fr' ->
    forall v, In v (output fr') -> In v (input fr) \/ In v (output fr).

End ServerMethod.

(** ** examples/typeconversion_annotated.cpp *)

Module TypeConversion.

(** [UA_Byte] is the native 8-bit unsigned integer; [std::byte] is a
    distinct C++ type over the same 8 bits. *)
Definition UA_Byte := Z.
Inductive std_byte := byte (bits : Z).

(** [TypeConverter<std::byte>]: the specialisation the example adds to
    namespace [opcua]. *)
Module TypeConverter_std_byte.
Definition NativeType := UA_Byte.
Definition fromNative (src : UA_Byte) : std_byte := byte src.
Definition toNative (src : std_byte) : UA_Byte :=
  match src with byte bits => bits end.
End TypeConverter_std_byte.

End TypeConversion.

(** ** examples/server_accesscontrol_annotated.cpp *)

Module ServerAccessControl.
Import UA.

(** [opcua::AccessLevel] bits (OPC UA AccessLevelType): bit 0 is
    CurrentRead, bit 1 is CurrentWrite. *)
Definition CurrentRead : Z := 1.
Definition CurrentWrite : Z := 2.


Record UserNameIdentityToken := {
  policyId : string;
  userName : string;
  password : string
}.

(** The user identity token arrives in an [ExtensionObject]: empty,
    or decoded as one of the token types, or still encoded. *)
Inductive ExtensionObject :=
| ExtEmpty
| ExtAnonymousIdentityToken (policy : string)
| ExtUserNameIdentityToken (t : UserNameIdentityToken)
| ExtEncoded (typeId : NodeId) (body : string).

(** [decodedData<UserNameIdentityToken>()]: a null pointer unless the
    object holds a decoded token of that type. *)
Definition decodedData_UserNameIdentityToken (o : ExtensionObject)
  : option UserNameIdentityToken :=
  match o with
  | ExtUserNameIdentityToken t => Some t
  | _ => None
  end.

Definition EndpointDescription := string.
Definition ByteString := string.

(** The plugin interface [AccessControlBase], restricted to the two
    members the example overrides. *)
Class AccessControlBase (C : Type) := {
  activateSession :
    C -> Session -> EndpointDescription -> ByteString -> ExtensionObject ->
    Session * StatusCode;
  getUserAccessLevel : C -> Session -> NodeId -> outcome Z
}.

(** [AccessControlDefault]: the base class; its [activateSession]
    checks the login against the configured accounts and yields a
    status code. *)
Record AccessControlDefault := {
  default_activateSession :
    Session -> EndpointDescription -> ByteString -> ExtensionObject -> StatusCode
}.

(** [class AccessControlCustom : public AccessControlDefault]. *)
Record AccessControlCustom := { base : AccessControlDefault }.

Definition isAdminKey : QualifiedName := (0, "isAdmin"%string).

Definition AccessControlCustom_activateSession
    (self : AccessControlCustom) (session : Session)
    (endpointDescription : EndpointDescription)
    (secureChannelRemoteCertificate : ByteString)
    (userIdentityToken : ExtensionObject) : Session * StatusCode :=
  let token := decodedData_UserNameIdentityToken userIdentityToken in
  let isAdmin :=
    match token with
    | Some t => String.eqb (userName t) "admin"
    | None => false
    end in
  let session := setSessionAttribute session isAdminKey (VBoolean isAdmin) in
  (session,
   default_activateSession (base self)
     session endpointDescription secureChannelRemoteCertificate userIdentityToken).

Definition AccessControlCustom_getUserAccessLevel
    (self : AccessControlCustom) (session : Session) (nodeId : NodeId)
  : outcome Z :=
  attr ← getSessionAttribute session isAdminKey;
  isAdmin ← scalar_bool attr;
  if isAdmin : bool
  then mret (Z.lor CurrentRead CurrentWrite)
  else mret CurrentRead.

(** The login the example treats as administrator: a decoded user name
    token whose user name is "admin". *)
Definition logs_in_as_admin (userIdentityToken : ExtensionObject) : Prop :=
  exists t, decodedData_UserNameIdentityToken userIdentityToken = Some t
            /\ userName t = "admin"%string.

#[global] Instance AccessControlCustom_plugin : AccessControlBase AccessControlCustom := {
  activateSession := AccessControlCustom_activateSession;
  getUserAccessLevel := AccessControlCustom_getUserAccessLevel
}.

End ServerAccessControl.

(** ** examples/server_valuecallback_annotated.cpp *)

Module ServerValueCallback.
Import UA.

(** The values of the server's variable nodes, as [Node::writeValue]
    sees them. *)
Definition AddressSpace := gmap NodeId Variant.

(** The plugin interface [ValueCallbackBase]. *)
Class ValueCallbackBase (C : Type) := {
  onRead :
    C -> AddressSpace -> DateTime -> Session -> NodeId -> option NumericRange ->
    DataValue -> outcome AddressSpace;
  onWrite :
    C -> AddressSpace -> Session -> NodeId -> option NumericRange ->
    DataValue -> outcome AddressSpace
}.

(** [class CurrentTimeCallback : public opcua::ValueCallbackBase]; it
    has no members of its own. *)
Inductive CurrentTimeCallback := CurrentTimeCallback_object.

Definition scalar_DateTime (v : Variant) : outcome DateTime :=
  match v with VDateTime t => Returns t | _ => Throws BadVariantAccess end.

(** [onRead]: read the old time out of the value, then write the
    current time ([now]) to the node. *)
Definition CurrentTimeCallback_onRead
    (self : CurrentTimeCallback) (space : AddressSpace) (now : DateTime)
    (session : Session) (id : NodeId) (range : option NumericRange)
    (v : DataValue) : outcome AddressSpace :=
  timeOld ← scalar_DateTime (value v);
  let timeNow := now in
  mret (<[id := VDateTime timeNow]> space).

Definition CurrentTimeCallback_onWrite
    (self : CurrentTimeCallback) (space : AddressSpace)
    (session : Session) (id : NodeId) (range : option NumericRange)
    (v : DataValue) : outcome AddressSpace :=
  mret space.

#[global] Instance CurrentTimeCallback_plugin : ValueCallbackBase CurrentTimeCallback := {
  onRead := CurrentTimeCallback_onRead;
  onWrite := CurrentTimeCallback_onWrite
}.

End ServerValueCallback.

(** ** examples/server_datasource_annotated.cpp *)

Module ServerDataSource.
Import UA.

(** What the template parameter [T] needs: [Variant{x}] stores a [T]
    and [Variant::to<T>()] gets it back, throwing when the variant
    holds something else. *)
Class VariantType (T : Type) := {
  toVariant : T -> Variant;
  to_ : Variant -> outcome T;
  to_toVariant : forall x, to_ (toVariant x) = Returns x
}.

(** [int], the instantiation [main] uses. *)
#[global] Instance int_VariantType : VariantType Z := {
  toVariant := VInt32;
  to_ := scalar_int32;
  to_toVariant := fun x => eq_refl
}.

(** The plugin interface [DataSourceBase].  [now] is the reading of
    [DateTime::now()] during the call. *)
Class DataSourceBase (S : Type) := {
  read :
    S -> DateTime -> Session -> NodeId -> option NumericRange -> DataValue -> bool ->
    outcome (S * DataValue * StatusCode);
  write :
    S -> Session -> NodeId -> option NumericRange -> DataValue ->
    outcome (S * StatusCode)
}.

(** [template <typename T> struct DataSource : public DataSourceBase]
    with its one member [T data{}]. *)
Record DataSource (T : Type) := { data : T }.
Arguments data {T} _.

Section DataSource.
Context {T : Type} `{VariantType T}.

Definition DataSource_read
    (self : DataSource T) (now : DateTime)
    (session : Session) (id : NodeId) (range : option NumericRange)
    (dv : DataValue) (timestamp : bool)
  : outcome (DataSource T * DataValue * StatusCode) :=
  let dv := setValue dv (toVariant (data self)) in
  let dv := if timestamp then setSourceTimestamp dv now else dv in
  mret (self, dv, UA_STATUSCODE_GOOD).

Definition DataSource_write
    (self : DataSource T)
    (session : Session) (id : NodeId) (range : option NumericRange)
    (dv : DataValue)
  : outcome (DataSource T * StatusCode) :=
  x ← to_ (value dv);
  let self := {| data := x |} in
  mret (self, UA_STATUSCODE_GOOD).

#[global] Instance DataSource_plugin : DataSourceBase (DataSource T) := {
  read := DataSource_read;
  write := DataSource_write
}.
End DataSource.

End ServerDataSource.


(** ** examples/client_connect_annotated.cpp *)

Module ClientConnect.

(** [CliParser] comes from helper.hpp, which is not among the sources.
    [main] uses four of its members; they are taken as given here. *)
Record CliParser := {
  nargs : nat;
  args : list string;
  hasFlag : string -> bool;
  value : string -> option string
}.

(** What the library does for this program: [Client::connect] returns
    ([None]) or throws an exception derived from [std::exception]
    ([Some e]); [Node::readValue] gives a result that holds a variant
    or a bad status; [Client::disconnect] returns or throws. *)
Record World := {
  connect : string -> option UA.exn;
  readValue : UA.NodeId -> UA.Result UA.Variant;
  disconnect : option UA.exn
}.

(** [opcua::VariableId::Server_ServerStatus_CurrentTime]. *)
Definition Server_ServerStatus_CurrentTime : UA.NodeId := UA.NodeIdNumeric 0 2258.

(** [Variant::to<opcua::DateTime>()]: the DateTime the variant holds;
    on a variant that holds anything else the conversion throws
    [BadVariantAccess] ([None]). *)
Definition to_DateTime (v : UA.Variant) : option UA.DateTime :=
  match v with
  | UA.VDateTime t => Some t
  | _ => None
  end.

(** Lines written to the console, by what they report. *)
Inductive message :=
| Usage
| ConnectingTo (serverUrl : string)
| AuthenticatingAs (username : string)
| AuthenticatingAnonymously
| ConfiguringAuthentication
| EstablishingConnection
| ConnectSucceeded
| ConnectFailed (e : UA.exn)
| ReadingServerTime
| ReadSucceeded (dt : UA.DateTime)
| ReadFailed (status : UA.StatusCode)
| Disconnecting
| Disconnected.

#[global] Instance message_eq_dec : EqDecision message.
Proof. solve_decision. Defined.

(** What the program does, in order: console writes and library calls. *)
Inductive event :=
| cout (m : message)
| cerr (m : message)
| Client_construct
| setUserIdentityToken (userName password : string)
| Client_connect (serverUrl : string)
| Node_readValue (id : UA.NodeId)
| Client_disconnect.

#[global] Instance event_eq_dec : EqDecision event.
Proof. solve_decision. Defined.

(** How [main] ends: it returns a code, or an exception leaves it.
    Only the call of [connect] stands in a [try] block. *)
Inductive ending :=
| returned (code : Z)
| uncaught (e : UA.exn).

#[global] Instance ending_eq_dec : EqDecision ending.
Proof. solve_decision. Defined.

(** The test guarding the usage text. *)
Definition usage_requested (parser : CliParser) : bool :=
  (nargs parser <? 2)%nat || hasFlag parser "-h" || hasFlag parser "--help".

(** What precedes the call of [connect] when the usage text is not
    printed. *)
Definition before_connect (parser : CliParser) : list event :=
  let serverUrl := args parser !!! (nargs parser - 1)%nat in
  let username := value parser "--username" in
  let password := value parser "--password" in
  [cout (ConnectingTo serverUrl);
   cout (match username with
         | Some u => AuthenticatingAs u
         | None => AuthenticatingAnonymously
         end);
   Client_construct]
  ++ match username with
     | Some u =>
         [cout ConfiguringAuthentication;
          setUserIdentityToken u (default EmptyString password)]
     | None => []
     end
  ++ [cout EstablishingConnection].

(** The end of [main], from the line that announces the disconnect. *)
Definition disconnect_and_return (w : World) (done : list event)
  : list event * ending :=
  match disconnect w with
  | Some e => (done ++ [cout Disconnecting; Client_disconnect], uncaught e)
  | None =>
      (done ++ [cout Disconnecting; Client_disconnect; cout Disconnected],
       returned 0)
  end.

(** [main], after [const CliParser parser{argc, argv}]: the events in
    program order and how the program ends. *)
Definition main (parser : CliParser) (w : World) : list event * ending :=
  if usage_requested parser then
    ([cout Usage], returned 2)
  else
    let serverUrl := args parser !!! (nargs parser - 1)%nat in
    let t := before_connect parser ++ [Client_connect serverUrl] in
    match connect w serverUrl with
    | Some e => (t ++ [cerr (ConnectFailed e)], returned 1)
    | None =>
        let t := t ++ [cout ConnectSucceeded; cout ReadingServerTime;
                       Node_readValue Server_ServerStatus_CurrentTime] in
        match readValue w Server_ServerStatus_CurrentTime with
        | UA.ResultValue v =>
            match to_DateTime v with
            | None => (t, uncaught UA.BadVariantAccess)
            | Some dt => disconnect_and_return w (t ++ [cout (ReadSucceeded dt)])
            end
        | UA.ResultBad status =>
            disconnect_and_return w (t ++ [cout (ReadFailed status)])
        end
    end.

(** What the program prints about the read: the time when the result
    holds a DateTime, the status when it holds none; nothing when
    [to<opcua::DateTime>()] throws. *)
Definition read_report (result : UA.Result UA.Variant) : option message :=
  match result with
  | UA.ResultValue v => ReadSucceeded <$> to_DateTime v
  | UA.ResultBad status => Some (ReadFailed status)
  end.

End ClientConnect.

(** ** examples/client_subscription_annotated.cpp *)

Module ClientSubscription.

Definition SIGINT : Z := 2.
Definition SIGTERM : Z := 15.

(** Library calls made by the reconnect loop and the shutdown code, in
    program order.  Console output is not recorded. *)
Inductive event :=
| Client_connect (serverUrl : string)
| Client_runIterate (timeoutMs : Z)
| Client_disconnect
| sleep_for_seconds (n : Z).

#[global] Instance event_eq_dec : EqDecision event.
Proof. solve_decision. Defined.

(** Where [main] stands.  The last three are final: [main] returned,
    an exception left [main] uncaught, or a signal with default
    disposition ended the process. *)
Inductive location :=
| outer_while
| call_connect
| inner_while
| call_runIterate
| catch_disconnect
| catch_sleep
| final_disconnect
| Exited (code : Z)
| Terminated (e : UA.exn)
| Killed (sig : Z).

#[global] Instance location_eq_dec : EqDecision location.
Proof. solve_decision. Defined.

Definition final (l : location) : bool :=
  match l with
  | Exited _ | Terminated _ | Killed _ => true
  | _ => false
  end.

(** The process: the global [std::atomic<bool> isRunning], the signals
    for which [signalHandler] is installed, the position in [main] and
    the calls made so far. *)
Record state := {
  isRunning : bool;
  installed : list Z;
  at_ : location;
  trace : list event
}.

Definition set_isRunning (b : bool) (st : state) : state :=
  {| isRunning := b; installed := installed st; at_ := at_ st; trace := trace st |}.

Definition goto (l : location) (st : state) : state :=
  {| isRunning := isRunning st; installed := installed st; at_ := l; trace := trace st |}.

Definition emit (e : event) (st : state) : state :=
  {| isRunning := isRunning st; installed := installed st; at_ := at_ st;
     trace := trace st ++ [e] |}.

(** [static void signalHandler(int sig) noexcept]. *)
Definition signalHandler (sig : Z) (st : state) : state :=
  if (sig =? SIGINT) || (sig =? SIGTERM) then set_isRunning false st else st.

(** [std::signal(sig, signalHandler)]. *)
Definition std_signal (sig : Z) (st : state) : state :=
  {| isRunning := isRunning st; installed := sig :: installed st;
     at_ := at_ st; trace := trace st |}.

(** [main] up to the reconnect loop: the flag starts out true and the
    handler is installed with [std::signal(SIGINT, signalHandler)]. *)
Definition start : state :=
  std_signal SIGINT
    {| isRunning := true; installed := []; at_ := outer_while; trace := [] |}.

(** A signal reaches the process.  With the handler installed it runs
    the handler; otherwise the default disposition applies, which for
    SIGINT and SIGTERM ends the process.  Other signals are not
    modelled. *)
Definition deliver (st : state) (sig : Z) : state :=
  if final (at_ st) then st
  else if bool_decide (sig ∈ installed st) then signalHandler sig st
  else if (sig =? SIGINT) || (sig =? SIGTERM) then goto (Killed sig) st
  else st.

(** How a library call ends. *)
Inductive call_result :=
| returns
| throws (e : UA.exn).

Definition serverUrl : string := "opc.tcp://localhost:4840".

(** One step of [main]: a loop test, or one library call together with
    the way it ends.  [catch (const opcua::BadStatus&)] takes bad-status
    exceptions only; the handler around the last [disconnect] takes
    every [std::exception]. *)
Definition step (st : state) (r : call_result) : state :=
  match at_ st with
  | outer_while =>
      if isRunning st then goto call_connect st else goto final_disconnect st
  | call_connect =>
      let st := emit (Client_connect serverUrl) st in
      match r with
      | returns => goto inner_while st
      | throws e =>
          if UA.isBadStatus e then goto catch_disconnect st
          else goto (Terminated e) st
      end
  | inner_while =>
      if isRunning st then goto call_runIterate st else goto outer_while st
  | call_runIterate =>
      let st := emit (Client_runIterate 100) st in
      match r with
      | returns => goto inner_while st
      | throws e =>
          if UA.isBadStatus e then goto catch_disconnect st
          else goto (Terminated e) st
      end
  | catch_disconnect =>
      let st := emit Client_disconnect st in
      match r with
      | returns => goto catch_sleep st
      | throws e => goto (Terminated e) st
      end
  | catch_sleep =>
      goto outer_while (emit (sleep_for_seconds 3) st)
  | final_disconnect =>
      goto (Exited 0) (emit Client_disconnect st)
  | Exited _ | Terminated _ | Killed _ => st
  end.

(** What the surroundings contribute to one step: the signals that
    arrive before it and the way its library call ends. *)
Record tick := { signals : list Z; result : call_result }.

Definition advance (st : state) (t : tick) : state :=
  step (foldl deliver st (signals t)) (result t).

Definition run (st : state) (ticks : list tick) : state :=
  foldl advance st ticks.

(** A process that has seen only [std::signal(SIGINT, signalHandler)]. *)
Definition handles_SIGINT_only (st : state) : Prop := installed st = [SIGINT].

(** The calls the loop may make: connect to the fixed address, iterate
    for 100 ms, disconnect, sleep for 3 s. *)
Definition expected (e : event) : Prop :=
  match e with
  | Client_connect url => url = serverUrl
  | Client_runIterate timeoutMs => timeoutMs = 100
  | Client_disconnect => True
  | sleep_for_seconds n => n = 3
  end.

Definition is_runIterate (e : event) : bool :=
  match e with Client_runIterate _ => true | _ => false end.

Definition is_connect (e : event) : bool :=
  match e with Client_connect _ => true | _ => false end.

(** Number of [runIterate] calls made so far. *)
Definition iterations (st : state) : nat :=
  length (List.filter is_runIterate (trace st)).

(** Number of [connect] calls made so far. *)
Definition connections (st : state) : nat :=
  length (List.filter is_connect (trace st)).

(** Calls already past their loop test: at most one [runIterate] or
    [connect] is still made once the flag is false. *)
Definition pending_iterations (l : location) : nat :=
  match l with call_runIterate => 1 | _ => 0 end.

Definition pending_connections (l : location) : nat :=
  match l with call_connect => 1 | _ => 0 end.

(** The calls made are the expected ones, and [main] returns only
    through the last [disconnect], with 0 and with the flag false. *)
Definition orderly (st : state) : Prop :=
  Forall expected (trace st)
  /\ (at_ st = final_disconnect -> isRunning st = false)
  /\ (forall code, at_ st = Exited code ->
        code = 0 /\ isRunning st = false
        /\ last (trace st) = Some Client_disconnect).

(** Steps [main] still needs once the flag is false, at most. *)
Definition remaining (l : location) : nat :=
  match l with
  | call_connect | call_runIterate => 5
  | catch_disconnect => 4
  | inner_while | catch_sleep => 3
  | outer_while => 2
  | final_disconnect => 1
  | Exited _ | Terminated _ | Killed _ => 0
  end.

End ClientSubscription.


(** ** examples/method/client_method_async_annotated.cpp *)

Module ClientMethodAsync.

Inductive thread := main_thread | clientThread.

#[global] Instance thread_eq_dec : EqDecision thread.
Proof. solve_decision. Defined.

(** [opcua::CallMethodResult], by the two members the example reads. *)
Record CallMethodResult := {
  statusCode : UA.StatusCode;
  outputArguments : list UA.Variant
}.

(** What the library does for this program, call by call.  [connect]
    returns ([None]) or throws; [browseChild] returns the node found
    ([inr]) or throws; [callMethodAsync] with [useFuture] returns a
    future or throws, and the future, once ready, gives the result of
    the call or rethrows what it holds; [callMethodAsync] with a
    callback returns or throws. *)
Record World := {
  connect : string -> option UA.exn;
  browseChild : Z -> string -> UA.exn + UA.NodeId;
  useFuture : UA.NodeId -> list UA.Variant -> UA.exn + (UA.exn + CallMethodResult);
  useCallback : UA.NodeId -> list UA.Variant -> option UA.exn
}.

(** Lines written to the console, by what they report. *)
Inductive message :=
| Banner
| Connecting
| ServerAddress
| Connected
| Browsing
| FoundGreet
| MethodNodeId (id : UA.NodeId)
| StartingLoop
| LoopThreadStarted
| LoopStarted
| AsyncDemo
| FutureMode
| CallingWith (argument : string)
| WaitingForFuture
| FutureReady
| StatusCodeLine (code : UA.StatusCode)
| OutputLabel
| OutputValue (text : string)
| FutureDone
| CallbackMode
| CallbackStarted
| CallbackInvoked
| CallbackDone
| SummaryHeader
| SummaryFuture
| SummaryCallback
| SummaryBoth
| SummaryNonBlocking
| Stopping
| Stopped
| ExampleDone
| Success.

(** What a thread does, step by step: console writes and library
    operations. *)
Inductive operation :=
| cout (m : message)
| Client_connect (serverUrl : string)
| Node_browseChild (ns : Z) (name : string)
| sleep_for_ms (n : Z)
| Client_run
| callMethodAsync_useFuture (methodId : UA.NodeId) (input : list UA.Variant)
| future_wait
| future_get
| callMethodAsync_callback (methodId : UA.NodeId) (input : list UA.Variant)
| Client_stop.

(** What the main thread does, in program order: operations, starting
    a thread on the body of a lambda, joining a thread. *)
Inductive action :=
| step (o : operation)
| thread_spawn (t : thread) (body : list operation)
| thread_join (t : thread).




(** How [main] ends: it returns a code, an exception leaves it (there
    is no [try] block in this program), or its behaviour is undefined. *)
Inductive ending :=
| returned (code : Z)
| uncaught (e : UA.exn)
| undefined.

(** [result.outputArguments()[0].scalar<opcua::String>()].  The span is
    indexed without a bounds check: on an empty span the behaviour is
    undefined.  [scalar] throws when the variant holds no string. *)
Definition first_output_String (result : CallMethodResult) : UA.outcome string :=
  match outputArguments result with
  | [] => UA.Undefined
  | v :: _ => UA.scalar_String v
  end.

(** The two lines printed about a result, by the Future block and by
    the callback alike: the status code, then a label followed by the
    first output.  The label is written before the output is
    evaluated. *)
Definition print_result (result : CallMethodResult)
  : list operation * UA.outcome unit :=
  let t := [cout (StatusCodeLine (statusCode result)); cout OutputLabel] in
  match first_output_String result with
  | UA.Returns text => (t ++ [cout (OutputValue text)], UA.Returns tt)
  | UA.Throws e => (t, UA.Throws e)
  | UA.Undefined => (t, UA.Undefined)
  end.

(** The completion callback passed to the second [callMethodAsync];
    the event loop calls it with the result of the call. *)
Definition callback (result : CallMethodResult)
  : list operation * UA.outcome unit :=
  let '(t, o) := print_result result in (cout CallbackInvoked :: t, o).

(** The lambda the event-loop thread runs. *)
Definition clientThread_body : list operation :=
  [cout LoopThreadStarted; Client_run].

Definition url : string := "opc.tcp://localhost:4840".

(** [int main()]: the actions of the main thread in program order and
    how it ends.  How the event-loop thread is scheduled against the
    main thread is the system's business and not recorded. *)
Definition main (w : World) : list action * ending :=
  let t := [step (cout Banner); step (cout Connecting); step (cout ServerAddress);
            step (Client_connect url)] in
  match connect w url with
  | Some e => (t, uncaught e)
  | None =>
  let t := t ++ [step (cout Connected); step (cout Browsing);
                 step (Node_browseChild 1 "Greet")] in
  match browseChild w 1 "Greet" with
  | inl e => (t, uncaught e)
  | inr greetMethodNode =>
  let t := t ++ [step (cout FoundGreet); step (cout (MethodNodeId greetMethodNode));
                 step (cout StartingLoop);
                 thread_spawn clientThread clientThread_body;
                 step (cout LoopStarted);
                 step (sleep_for_ms 100);
                 step (cout AsyncDemo); step (cout FutureMode);
                 step (cout (CallingWith "Future World"));
                 step (callMethodAsync_useFuture greetMethodNode
                         [UA.VString "Future World"])] in
  match useFuture w greetMethodNode [UA.VString "Future World"] with
  | inl e => (t, uncaught e)
  | inr future =>
  let t := t ++ [step (cout WaitingForFuture); step future_wait;
                 step (cout FutureReady); step future_get] in
  match future with
  | inl e => (t, uncaught e)
  | inr result =>
  match print_result result with
  | (printed, UA.Throws e) => (t ++ map step printed, uncaught e)
  | (printed, UA.Undefined) => (t ++ map step printed, undefined)
  | (printed, UA.Returns _) =>
  let t := t ++ map step printed
             ++ [step (cout FutureDone); step (cout CallbackMode);
                 step (cout (CallingWith "Callback World"));
                 step (callMethodAsync_callback greetMethodNode
                         [UA.VString "Callback World"])] in
  match useCallback w greetMethodNode [UA.VString "Callback World"] with
  | Some e => (t, uncaught e)
  | None =>
      (t ++ [step (cout CallbackStarted); step (sleep_for_ms 500);
             step (cout CallbackDone);
             step (cout SummaryHeader); step (cout SummaryFuture);
             step (cout SummaryCallback); step (cout SummaryBoth);
             step (cout SummaryNonBlocking);
             step (cout Stopping);
             step Client_stop;
             thread_join clientThread;
             step (cout Stopped); step (cout ExampleDone); step (cout Success)],
       returned 0)
  end end end end end end.




End ClientMethodAsync.




(** ** examples/client_browse_annotated.cpp *)

Module ClientBrowse.

(** [opcua::ReferenceDescription], by the two members the example
    reads: [browseName().name()] and [nodeId()]. *)
Record ReferenceDescription := { browseName : string; nodeId : UA.NodeId }.

(** What [opcua::services::browse] does for a node: a result holding
    the references, a result holding a bad status, or an exception. *)
Inductive browse_outcome :=
| browse_ok (references : list ReferenceDescription)
| browse_bad (status : UA.StatusCode)
| browse_throws (e : UA.exn).

(** The address space the client browses. *)
Definition Server := UA.NodeId -> browse_outcome.

(** [refNodeId.hasStringIdentifier()] with [identifier().string()]. *)
Definition string_identifier (n : UA.NodeId) : option string :=
  match n with
  | UA.NodeIdString _ name => Some name
  | UA.NodeIdNumeric _ _ => None
  end.

(** The exceptions the function can meet: those of the library, and
    [std::length_error] from the constructor of [std::string].  All of
    them derive from [std::exception]. *)
Inductive exception :=
| library (e : UA.exn)
| length_error.

(** What the function does, in order: the browse calls and the lines
    it prints, each line with the length of its indent. *)
Inductive output :=
| services_browse (node : UA.NodeId)
| found_references (indent : nat) (count : nat)
| reference_line (indent : nat) (name : string) (id : option string)
| browse_failed (indent : nat) (status : UA.StatusCode)
| browse_exception (indent : nat) (e : exception).

Definition is_browse (o : output) : bool :=
  match o with services_browse _ => true | _ => false end.


(** How a call ends: it returns, an exception leaves it, or its
    behaviour is undefined. *)
Inductive ending :=
| returned
| thrown (e : exception)
| undefined.

(** A range-based [for] loop whose body may end by an exception or by
    undefined behaviour: the loop ends there. *)
Fixpoint for_each {A : Type} (body : A -> list output * ending) (l : list A)
  : list output * ending :=
  match l with
  | [] => ([], returned)
  | x :: rest =>
      match body x with
      | (out, returned) =>
          let '(later, e) := for_each body rest in (out ++ later, e)
      | (out, e) => (out, e)
      end
  end.

(** [try { ... } catch (const std::exception& e) { ... }]: an exception
    thrown in the block is caught and reported in a line of its own. *)
Definition try_catch (indent : nat) (block : list output * ending)
  : list output * ending :=
  match block with
  | (out, thrown e) => (out ++ [browse_exception indent e], returned)
  | _ => block
  end.

(** The body of [browseNodeRecursively]; [depth] is the number of
    levels left, [maxLevel - level], so that [depth = 0] is the test
    [level >= maxLevel].

    [level] is an [int].  In [std::string indent(level * 2, ' ')] the
    product is computed in [int]: when it is not representable the
    behaviour is undefined.  The product is then converted to the
    unsigned [size_t]: a negative one becomes a length above
    [max_size()] and the constructor throws [std::length_error],
    outside the [try] block.  Where [level + 1] is computed the
    product [level * 2] was representable and not negative, so the sum
    is representable. *)
Fixpoint browse_levels (w : Server) (depth : nat) (node : UA.NodeId) (level : Z)
  : list output * ending :=
  match depth with
  | O => ([], returned)
  | S depth' =>
      if negb (UA.is_int32 (level * 2)) then ([], undefined)
      else if level * 2 <? 0 then ([], thrown length_error)
      else
        let indent := Z.to_nat (level * 2) in
        try_catch indent
          match w node with
          | browse_throws e => ([services_browse node], thrown (library e))
          | browse_bad status =>
              ([services_browse node; browse_failed indent status], returned)
          | browse_ok references =>
              let '(out, e) :=
                for_each
                  (fun reference =>
                     let '(out, e) :=
                       browse_levels w depth' (nodeId reference) (level + 1) in
                     (reference_line indent (browseName reference)
                        (string_identifier (nodeId reference)) :: out, e))
                  references in
              (services_browse node
                 :: found_references indent (length references) :: out, e)
          end
  end.

(** [void browseNodeRecursively(client, nodeId, level, maxLevel)]. *)
Definition browseNodeRecursively
    (w : Server) (node : UA.NodeId) (level maxLevel : Z) : list output * ending :=
  browse_levels w (Z.to_nat (maxLevel - level)) node level.

(** [n] is [root] or lies at most [k] references below it. *)
Fixpoint within (w : Server) (k : nat) (root n : UA.NodeId) : Prop :=
  n = root
  \/ match k with
     | O => False
     | S k' =>
         exists references reference,
           w root = browse_ok references
           /\ reference ∈ references
           /\ within w k' (nodeId reference) n
     end.

(** [1 + b + b^2 + ... + b^(d-1)]: the nodes of a tree of [d] levels
    with [b] children per node. *)
Fixpoint tree_size (b : nat) (d : nat) : nat :=
  match d with
  | O => O
  | S d' => S (b * tree_size b d')
  end.

Definition browse_count (out : list output) : nat :=
  length (List.filter is_browse out).

End ClientBrowse.

(** ** examples/client_find_servers_annotated.cpp *)

Module ClientFindServers.

(** [opcua::ApplicationType] and [opcua::MessageSecurityMode], by the
    numeric value of the enumerators. *)
Definition ApplicationType_Server : Z := 0.
Definition ApplicationType_Client : Z := 1.
Definition ApplicationType_ClientAndServer : Z := 2.
Definition ApplicationType_DiscoveryServer : Z := 3.

Definition MessageSecurityMode_Invalid : Z := 0.
Definition MessageSecurityMode_None : Z := 1.
Definition MessageSecurityMode_Sign : Z := 2.
Definition MessageSecurityMode_SignAndEncrypt : Z := 3.

(** [toString(opcua::ApplicationType)]. *)
Definition toString_ApplicationType (applicationType : Z) : string :=
  match applicationType with
  | 0 => "服务器"
  | 1 => "客户端"
  | 2 => "客户端和服务器"
  | 3 => "发现服务器"
  | _ => "未知类型"
  end.

(** [toString(opcua::MessageSecurityMode)]. *)
Definition toString_MessageSecurityMode (securityMode : Z) : string :=
  match securityMode with
  | 0 => "无效"
  | 1 => "无安全保护"
  | 2 => "仅签名"
  | 3 => "签名和加密"
  | _ => "无效的安全模式"
  end.

Record EndpointDescription := {
  endpointUrl : string;
  transportProfileUri : string;
  securityMode : Z;
  securityPolicyUri : string;
  securityLevel : Z;
  userIdentityTokens : list string
}.

Record ApplicationDescription := {
  applicationName : string;
  applicationUri : string;
  productUri : string;
  applicationType : Z;
  discoveryUrls : list string
}.

(** What the library does for this program: each call returns its
    list ([inr]) or throws ([inl]). *)
Record World := {
  findServers : string -> UA.exn + list ApplicationDescription;
  getEndpoints : string -> UA.exn + list EndpointDescription
}.

(** Lines written to the console, by what they report. *)
Inductive message :=
| Banner
| Searching
| SearchAddress
| ServersFound (count : nat)
| ServerHeader (serverIndex : nat)
| ServerName (text : string)
| ServerApplicationUri (uri : string)
| ServerProductUri (uri : string)
| ServerApplicationType (label : string)
| DiscoveryUrlsHeader
| NoDiscoveryUrl
| DiscoveryUrl (url : string)
| FetchingEndpoints
| EndpointHeader (endpointIndex : nat)
| EndpointUrl (url : string)
| EndpointTransportProfile (uri : string)
| EndpointSecurityMode (label : string)
| EndpointSecurityPolicy (uri : string)
| EndpointSecurityLevel (level : Z)
| TokensHeader
| NoToken
| Token (policyId : string)
| NoServerFound
| PleaseMakeSure
| HintServerRunning
| HintNetwork
| HintFirewall
| DiscoveryDone
| ServersTotal (count : nat)
| DetailsProvided.

Inductive event :=
| cout (m : message)
| Client_findServers (url : string)
| Client_getEndpoints (url : string).

Definition is_getEndpoints (e : event) : option string :=
  match e with Client_getEndpoints url => Some url | _ => None end.

Definition is_ServerHeader (e : event) : option nat :=
  match e with cout (ServerHeader i) => Some i | _ => None end.

(** How [main] ends: it returns a code, or an exception leaves it. *)
Inductive ending :=
| returned (code : Z)
| uncaught (e : UA.exn).

(** The lines for one endpoint. *)
Definition print_endpoint (endpointIndex : nat) (endpoint : EndpointDescription)
  : list event :=
  [cout (EndpointHeader endpointIndex);
   cout (EndpointUrl (endpointUrl endpoint));
   cout (EndpointTransportProfile (transportProfileUri endpoint));
   cout (EndpointSecurityMode (toString_MessageSecurityMode (securityMode endpoint)));
   cout (EndpointSecurityPolicy (securityPolicyUri endpoint));
   cout (EndpointSecurityLevel (securityLevel endpoint));
   cout TokensHeader]
  ++ match userIdentityTokens endpoint with
     | [] => [cout NoToken]
     | tokens => map (fun policyId => cout (Token policyId)) tokens
     end.

(** The loop over the endpoints of one URL; [endpointIndex] counts up
    from its value at entry. *)
Fixpoint print_endpoints (endpointIndex : nat) (endpoints : list EndpointDescription)
  : list event :=
  match endpoints with
  | [] => []
  | endpoint :: rest =>
      print_endpoint endpointIndex endpoint ++ print_endpoints (S endpointIndex) rest
  end.

(** The loop over the discovery URLs of one server: the events, and
    the exception that ended the loop, if any. *)
Fixpoint fetch_endpoints (w : World) (urls : list string)
  : list event * option UA.exn :=
  match urls with
  | [] => ([], None)
  | url :: rest =>
      match getEndpoints w url with
      | inl e => ([Client_getEndpoints url], Some e)
      | inr endpoints =>
          let '(later, e) := fetch_endpoints w rest in
          (Client_getEndpoints url :: print_endpoints 0 endpoints ++ later, e)
      end
  end.

(** One pass of the loop over the servers. *)
Definition print_server (w : World) (serverIndex : nat) (server : ApplicationDescription)
  : list event * option UA.exn :=
  let head :=
    [cout (ServerHeader serverIndex);
     cout (ServerName (applicationName server));
     cout (ServerApplicationUri (applicationUri server));
     cout (ServerProductUri (productUri server));
     cout (ServerApplicationType (toString_ApplicationType (applicationType server)));
     cout DiscoveryUrlsHeader] in
  match discoveryUrls server with
  | [] => (head ++ [cout NoDiscoveryUrl], None)
  | urls =>
      let '(fetched, e) := fetch_endpoints w urls in
      (head ++ map (fun url => cout (DiscoveryUrl url)) urls
            ++ [cout FetchingEndpoints] ++ fetched, e)
  end.

(** The loop over the servers; [serverIndex] counts across servers. *)
Fixpoint print_servers (w : World) (serverIndex : nat)
    (servers : list ApplicationDescription) : list event * option UA.exn :=
  match servers with
  | [] => ([], None)
  | server :: rest =>
      match print_server w serverIndex server with
      | (events, Some e) => (events, Some e)
      | (events, None) =>
          let '(later, e) := print_servers w (S serverIndex) rest in
          (events ++ later, e)
      end
  end.

(** The URLs [getEndpoints] was called with, and the numbers of the
    server headings printed, in order. *)
Definition getEndpoints_calls (events : list event) : list string :=
  omap is_getEndpoints events.

Definition server_headers (events : list event) : list nat :=
  omap is_ServerHeader events.

(** The events end with the call of [getEndpoints] that threw [e]. *)
Definition stopped_at (w : World) (events : list event) (e : UA.exn) : Prop :=
  exists url, last events = Some (Client_getEndpoints url)
              /\ getEndpoints w url = inl e.

Definition searchAddress : string := "opc.tcp://localhost:4840".

(** [int main()]. *)
Definition main (w : World) : list event * ending :=
  let start := [cout Banner; cout Searching; cout SearchAddress;
                Client_findServers searchAddress] in
  match findServers w searchAddress with
  | inl e => (start, uncaught e)
  | inr servers =>
      match print_servers w 0 servers with
      | (events, Some e) =>
          (start ++ [cout (ServersFound (length servers))] ++ events, uncaught e)
      | (events, None) =>
          (start ++ [cout (ServersFound (length servers))] ++ events
             ++ match servers with
                | [] => [cout NoServerFound; cout PleaseMakeSure;
                         cout HintServerRunning;
                         cout HintNetwork; cout HintFirewall]
                | _ => [cout DiscoveryDone; cout (ServersTotal (length servers));
                        cout DetailsProvided]
                end,
           returned 0)
      end
  end.

End ClientFindServers.

(** ** demo/demo_submodule/client_demo.cpp and example/demo_installed/client_demo.cpp *)

Module ClientDemo.

(** What the library does for this program, call by call: [connect]
    and [writeValue] return ([None]) or throw; the two [readValue]
    calls return a variant ([inr]) or throw. *)
Record World := {
  connect : string -> option UA.exn;
  readValue_first : UA.exn + UA.Variant;
  writeValue : UA.Variant -> option UA.exn;
  readValue_second : UA.exn + UA.Variant
}.

Inductive event :=
| Client_connect (url : string)
| Node_readValue (id : UA.NodeId)
| Node_writeValue (id : UA.NodeId) (v : UA.Variant)
| cout_text (s : string)
| cout_int (z : Z)
| cerr_exception (e : UA.exn).

(** [Variant::to<int>()]. *)
Definition to_int (v : UA.Variant) : UA.exn + Z :=
  match v with
  | UA.VInt32 z => inr z
  | _ => inl UA.BadVariantAccess
  end.

Definition url : string := "opc.tcp://localhost:4840".
Definition node : UA.NodeId := UA.NodeIdNumeric 1 1000.

(** The [catch] block: report on the error stream and return 1. *)
Definition caught (done : list event) (e : UA.exn) : list event * Z :=
  (done ++ [cerr_exception e], 1).

(** [int main()].  In [std::cout << "Read back: " << v2.to<int>()] the
    text is written before the conversion is evaluated. *)
Definition main (w : World) : list event * Z :=
  let t := [Client_connect url] in
  match connect w url with
  | Some e => caught t e
  | None =>
  let t := t ++ [Node_readValue node] in
  match readValue_first w with
  | inl e => caught t e
  | inr v =>
  match to_int v with
  | inl e => caught t e
  | inr current =>
  let t := t ++ [cout_text "Read current value: "; cout_int current;
                 Node_writeValue node (UA.VInt32 123)] in
  match writeValue w (UA.VInt32 123) with
  | Some e => caught t e
  | None =>
  let t := t ++ [cout_text "Wrote value 123"; Node_readValue node] in
  match readValue_second w with
  | inl e => caught t e
  | inr v2 =>
  let t := t ++ [cout_text "Read back: "] in
  match to_int v2 with
  | inl e => caught t e
  | inr back => (t ++ [cout_int back], 0)
  end end end end end end.

End ClientDemo.


(** ** Runs of client_subscription *)

Module ClientSubscriptionRuns.
Import ClientSubscription.

(** A step before which no signal arrives. *)
Definition quiet_tick (r : call_result) : tick := {| signals := []; result := r |}.

End ClientSubscriptionRuns.

(** ** examples/server_logger_annotated.cpp *)

Module ServerLogger.
Import Stdlib.Strings.Ascii.

(** [opcua::LogLevel] and [opcua::LogCategory]: the enumerators the
    example names, and any other value of the enumeration type. *)
Inductive LogLevel :=
| Trace | Debug | Info | Warning | Error | Fatal
| LogLevel_other (value : Z).

Inductive LogCategory :=
| Network | SecureChannel | Session | Server | Client | Userland | SecurityPolicy
| LogCategory_other (value : Z).

(** [toString(opcua::LogLevel)]. *)
Definition toString_LogLevel (level : LogLevel) : string :=
  match level with
  | Trace => "trace"
  | Debug => "debug"
  | Info => "info"
  | Warning => "warning"
  | Error => "error"
  | Fatal => "fatal"
  | LogLevel_other _ => "unknown"
  end.

(** [toString(opcua::LogCategory)]. *)
Definition toString_LogCategory (category : LogCategory) : string :=
  match category with
  | Network => "network"
  | SecureChannel => "channel"
  | Session => "session"
  | Server => "server"
  | Client => "client"
  | Userland => "userland"
  | SecurityPolicy => "securitypolicy"
  | LogCategory_other _ => "unknown"
  end.

(** The line the [logger] lambda writes for one log message. *)
Definition logger (level : LogLevel) (category : LogCategory) (msg : string) : string :=
  "[" +:+ toString_LogLevel level +:+ "] "
  +:+ "[" +:+ toString_LogCategory category +:+ "] "
  +:+ msg.

(** No closing bracket occurs in the string. *)
Fixpoint bracket_free (s : string) : bool :=
  match s with
  | EmptyString => true
  | String c rest => negb (Ascii.eqb c "]"%char) && bracket_free rest
  end.

End ServerLogger.


(** * Properties *)

(** ** The method handlers of server_method *)

Module ServerMethodSpec.
Import UA ServerMethod.

Lemma is_int32_bounds z : is_int32 z = true <-> - 2 ^ 31 <= z <= 2 ^ 31 - 1.
Proof.
  unfold is_int32, INT32_MIN, INT32_MAX.
  rewrite andb_true_iff, !Z.leb_le. reflexivity.
Qed.

Lemma wrap32_int32 z : is_int32 z = true -> wrap32 z = z.
Proof.
  intros Hz%is_int32_bounds. unfold wrap32.
  rewrite Z.mod_small; lia.
Qed.

Lemma span_assign_head {A} (x : A) (xs : list A) (v : A) :
  span_assign (x :: xs) 0 v = Returns (v :: xs).
Proof.
  unfold span_assign. destruct (decide _) as [|Hn]; [reflexivity|].
  exfalso. apply Hn. simpl. lia.
Qed.

Lemma int32_add_fits a b : is_int32 (a + b) = true -> int32_add a b = Returns (a + b).
Proof. intros H. unfold int32_add. rewrite H. reflexivity. Qed.

Lemma int32_add_overflows a b : is_int32 (a + b) = false -> int32_add a b = Undefined.
Proof. intros H. unfold int32_add. rewrite H. reflexivity. Qed.

(** [std::transform] over sums that all fit. *)
Lemma transform_int32_add (values : list Z) (delta : Z) :
  Forall (fun v => is_int32 (v + delta) = true) values ->
  transform (fun v => int32_add v delta) values
  = Returns (map (fun v => v + delta) values).
Proof.
  induction 1 as [|v vs Hv _ IH]; [reflexivity|].
  cbn [transform map]. rewrite IH, (int32_add_fits _ _ Hv). reflexivity.
Qed.

(** The first sum that does not fit makes the whole call undefined. *)
Lemma transform_int32_add_overflow (values : list Z) (delta : Z) :
  Exists (fun v => is_int32 (v + delta) = false) values ->
  transform (fun v => int32_add v delta) values = Undefined.
Proof.
  induction values as [|v vs IH]; intros Hex.
  - inversion Hex.
  - cbn [transform].
    destruct (is_int32 (v + delta)) eqn:Hv.
    + rewrite (int32_add_fits _ _ Hv), IH; [reflexivity|].
      inversion Hex; subst; [congruence|assumption].
    + rewrite (int32_add_overflows _ _ Hv). reflexivity.
Qed.

Lemma Greet_returns (name : string) (more : list Variant) (o : Variant)
    (outs : list Variant) :
  Greet {| input := VString name :: more; output := o :: outs |}
  = Returns {| input := VString name :: more;
               output := VString ("Hello " +:+ name) :: outs |}.
Proof.
  unfold Greet. cbn [input output span_at lookup list_lookup scalar_String].
  cbn. rewrite span_assign_head. reflexivity.
Qed.

Lemma IncInt32ArrayValues_returns (values : list Z) (delta : Z)
    (more : list Variant) (o : Variant) (outs : list Variant) :
  Forall (fun v => is_int32 (v + delta) = true) values ->
  IncInt32ArrayValues
    {| input := VInt32Array values :: VInt32 delta :: more; output := o :: outs |}
  = Returns {| input := VInt32Array values :: VInt32 delta :: more;
               output := VInt32Array (map (fun v => v + delta) values) :: outs |}.
Proof.
  intros Hfit. unfold IncInt32ArrayValues. cbn.
  rewrite (transform_int32_add _ _ Hfit). cbn.
  rewrite span_assign_head. reflexivity.
Qed.

Lemma length_append (a b : string) :
  String.length (a +:+ b) = (String.length a + String.length b)%nat.
Proof.
  induction a as [|c a IH]; [reflexivity|].
  change (S (String.length (a +:+ b)) = S (String.length a + String.length b)).
  rewrite IH. reflexivity.
Qed.

Lemma greeting_is_new (name : string) : "Hello " +:+ name <> name.
Proof.
  intros Heq. apply (f_equal String.length) in Heq.
  rewrite length_append in Heq. cbn in Heq. lia.
Qed.

Lemma incremented_is_new (values : list Z) (delta : Z) :
  values <> [] -> delta <> 0 -> map (fun v => v + delta) values <> values.
Proof.
  destruct values as [|v vs]; [congruence|].
  intros _ Hd Heq. cbn [map] in Heq. inversion Heq as [[Hv Hvs]]. lia.
Qed.

(** C1 (as stated, refuted).  The two handlers are not pass-throughs:
    called with the name "World", Greet writes "Hello World", which is
    in neither span before the call; called with [1;2;3;4;5] and 10,
    IncInt32ArrayValues writes [11;12;13;14;15]. *)
Lemma handlers_not_pass_through :
  Greet {| input := [VString "World"]; output := [VEmpty] |}
  = Returns {| input := [VString "World"]; output := [VString "Hello World"] |}
  /\ IncInt32ArrayValues
       {| input := [VInt32Array [1; 2; 3; 4; 5]; VInt32 10]; output := [VEmpty] |}
     = Returns {| input := [VInt32Array [1; 2; 3; 4; 5]; VInt32 10];
                  output := [VInt32Array [11; 12; 13; 14; 15]] |}
  /\ ~ pass_through Greet
  /\ ~ pass_through IncInt32ArrayValues.
Proof.
  assert (HG : Greet {| input := [VString "World"]; output := [VEmpty] |}
    = Returns {| input := [VString "World"]; output := [VString "Hello World"] |})
    by reflexivity.
  assert (HI : IncInt32ArrayValues
       {| input := [VInt32Array [1; 2; 3; 4; 5]; VInt32 10]; output := [VEmpty] |}
     = Returns {| input := [VInt32Array [1; 2; 3; 4; 5]; VInt32 10];
                  output := [VInt32Array [11; 12; 13; 14; 15]] |})
    by reflexivity.
  split; [exact HG|]. split; [exact HI|]. split.
  - intros Hp. destruct (Hp _ _ HG (VString "Hello World")) as [Hin|Hin].
    + cbn. left. reflexivity.
    + cbn in Hin. destruct Hin as [Heq|[]]. discriminate Heq.
    + cbn in Hin. destruct Hin as [Heq|[]]. discriminate Heq.
  - intros Hp.
    destruct (Hp _ _ HI (VInt32Array [11; 12; 13; 14; 15])) as [Hin|Hin].
    + cbn. left. reflexivity.
    + cbn in Hin. destruct Hin as [Heq|[Heq|[]]]; discriminate Heq.
    + cbn in Hin. destruct Hin as [Heq|[]]. discriminate Heq.
Qed.

(** C1 (amended).  The handlers compute their results themselves.
    Greet writes the concatenation of "Hello " and the name it was
    given, a string different from that name.  IncInt32ArrayValues
    writes the array of element-wise sums whenever every sum fits in an
    int32, and for a non-empty array and a non-zero delta this array
    differs from the one it was given. *)
Theorem handlers_compute_their_results :
  (forall name more o outs,
      Greet {| input := VString name :: more; output := o :: outs |}
      = Returns {| input := VString name :: more;
                   output := VString ("Hello " +:+ name) :: outs |}
      /\ VString ("Hello " +:+ name) <> VString name)
  /\ (forall values delta more o outs,
      Forall (fun v => is_int32 (v + delta) = true) values ->
      exists incremented,
        IncInt32ArrayValues
          {| input := VInt32Array values :: VInt32 delta :: more;
             output := o :: outs |}
        = Returns {| input := VInt32Array values :: VInt32 delta :: more;
                     output := VInt32Array incremented :: outs |}
        /\ incremented = map (fun v => v + delta) values
        /\ (values <> [] -> delta <> 0 -> incremented <> values)).
Proof.
  split.
  - intros name more o outs. split; [apply Greet_returns|].
    intros Heq. injection Heq as Heq. exact (greeting_is_new _ Heq).
  - intros values delta more o outs Hfit.
    exists (map (fun v => v + delta) values).
    split; [apply IncInt32ArrayValues_returns; exact Hfit|].
    split; [reflexivity|]. apply incremented_is_new.
Qed.

(** The amended C1 at "World" and at [1;2;3;4;5] with delta 10. *)
Lemma handlers_compute_their_results_witness :
  VString ("Hello " +:+ "World") <> VString "World"
  /\ exists incremented,
       IncInt32ArrayValues
         {| input := [VInt32Array [1; 2; 3; 4; 5]; VInt32 10]; output := [VEmpty] |}
       = Returns {| input := [VInt32Array [1; 2; 3; 4; 5]; VInt32 10];
                    output := [VInt32Array incremented] |}
       /\ incremented = map (fun v => v + 10) [1; 2; 3; 4; 5]
       /\ ([1; 2; 3; 4; 5] <> [] -> 10 <> 0 -> incremented <> [1; 2; 3; 4; 5]).
Proof.
  split.
  - exact (proj2 (proj1 handlers_compute_their_results "World" [] VEmpty [])).
  - apply (proj2 handlers_compute_their_results [1; 2; 3; 4; 5] 10 [] VEmpty []).
    repeat constructor.
Defined.

(** C8 (as stated, refuted).  With the largest int32 in the array and
    delta 1 the sum does not fit: the addition [v + delta] on [int32_t]
    operands overflows, the call is undefined and writes no wrapped
    value. *)
Lemma IncInt32ArrayValues_overflow :
  is_int32 2147483647 = true
  /\ is_int32 1 = true
  /\ IncInt32ArrayValues
       {| input := [VInt32Array [2147483647]; VInt32 1]; output := [VEmpty] |}
     = Undefined
  /\ IncInt32ArrayValues
       {| input := [VInt32Array [2147483647]; VInt32 1]; output := [VEmpty] |}
     <> Returns {| input := [VInt32Array [2147483647]; VInt32 1];
                   output := [VInt32Array [wrap32 (2147483647 + 1)]] |}.
Proof.
  assert (H : IncInt32ArrayValues
       {| input := [VInt32Array [2147483647]; VInt32 1]; output := [VEmpty] |}
     = Undefined) by reflexivity.
  repeat split; try reflexivity. rewrite H. discriminate.
Qed.

(** C8 (amended).  When the first input holds an int32 array [values],
    the second an int32 [delta], and every [values[i] + delta] fits in an
    int32, the handler writes to its first output an array of the same
    length whose i-th entry is [values[i] + delta], which then is also
    the 32-bit wrap-around sum; the input span is unchanged.  When some
    sum does not fit, the call is undefined. *)
Theorem IncInt32ArrayValues_increments
    (values : list Z) (delta : Z) (more : list Variant)
    (o : Variant) (outs : list Variant) :
  let fr := {| input := VInt32Array values :: VInt32 delta :: more;
               output := o :: outs |} in
  (Forall (fun v => is_int32 (v + delta) = true) values ->
   exists r,
     IncInt32ArrayValues fr
     = Returns {| input := input fr; output := VInt32Array r :: outs |}
     /\ length r = length values
     /\ forall (i : nat) (v : Z), values !! i = Some v ->
          r !! i = Some (v + delta) /\ v + delta = wrap32 (v + delta))
  /\ (Exists (fun v => is_int32 (v + delta) = false) values ->
      IncInt32ArrayValues fr = Undefined).
Proof.
  intros fr. split.
  - intros Hfit. exists (map (fun v => v + delta) values).
    split; [apply IncInt32ArrayValues_returns; exact Hfit|].
    split; [apply length_map|].
    intros i v Hi. split.
    + rewrite list_lookup_fmap, Hi. reflexivity.
    + symmetry. apply wrap32_int32.
      rewrite Forall_forall in Hfit. apply Hfit.
      eapply list_elem_of_lookup_2. exact Hi.
  - intros Hex. unfold IncInt32ArrayValues, fr. cbn.
    rewrite (transform_int32_add_overflow _ _ Hex). reflexivity.
Qed.

(** The amended C8 at [1;2;3;4;5] with delta 10, and at the overflow. *)
Lemma IncInt32ArrayValues_increments_witness :
  (exists r,
     IncInt32ArrayValues
       {| input := [VInt32Array [1; 2; 3; 4; 5]; VInt32 10]; output := [VEmpty] |}
     = Returns {| input := [VInt32Array [1; 2; 3; 4; 5]; VInt32 10];
                  output := [VInt32Array r] |}
     /\ length r = 5%nat
     /\ forall (i : nat) (v : Z), [1; 2; 3; 4; 5] !! i = Some v ->
          r !! i = Some (v + 10) /\ v + 10 = wrap32 (v + 10))
  /\ IncInt32ArrayValues
       {| input := [VInt32Array [2147483647]; VInt32 1]; output := [VEmpty] |}
     = Undefined.
Proof.
  split.
  - apply (proj1 (IncInt32ArrayValues_increments [1; 2; 3; 4; 5] 10 [] VEmpty [])).
    repeat constructor.
  - apply (proj2 (IncInt32ArrayValues_increments [2147483647] 1 [] VEmpty [])).
    constructor. reflexivity.
Defined.

End ServerMethodSpec.


(** ** The access control of server_accesscontrol *)

Module ServerAccessControlSpec.
Import UA ServerAccessControl.






End ServerAccessControlSpec.

(** ** The data source of server_datasource *)

Module ServerDataSourceSpec.
Import UA ServerDataSource.

Section DataSource.
Context {T : Type} `{VariantType T}.

Lemma DataSource_read_returns (self : DataSource T) (now : DateTime)
    (session : Session) (id : NodeId) (range : option NumericRange)
    (dv : DataValue) (timestamp : bool) :
  exists dv',
    DataSource_read self now session id range dv timestamp
    = Returns (self, dv', UA_STATUSCODE_GOOD)
    /\ value dv' = toVariant (data self)
    /\ sourceTimestamp dv' = (if timestamp then Some now else sourceTimestamp dv).
Proof.
  unfold DataSource_read. eexists. split; [reflexivity|].
  destruct timestamp; split; reflexivity.
Qed.

Lemma DataSource_write_returns (self : DataSource T)
    (session : Session) (id : NodeId) (range : option NumericRange)
    (dv : DataValue) (x : T) :
  to_ (value dv) = Returns x ->
  DataSource_write self session id range dv
  = Returns ({| data := x |}, UA_STATUSCODE_GOOD).
Proof. intros Hx. unfold DataSource_write. rewrite Hx. reflexivity. Qed.

Lemma DataSource_write_throws (self : DataSource T)
    (session : Session) (id : NodeId) (range : option NumericRange)
    (dv : DataValue) (e : exn) :
  to_ (value dv) = Throws e ->
  DataSource_write self session id range dv = Throws e.
Proof. intros Hx. unfold DataSource_write. rewrite Hx. reflexivity. Qed.

End DataSource.

(** C10 (as stated, refuted).  [write] does not return the good status
    on every call: on the [DataSource<int>] of the example, a write
    whose DataValue holds a string, or an int32 array, makes
    [to<int>()] throw, and no status is returned. *)
Lemma DataSource_write_not_always_good :
  let dataSource : DataSource Z := {| data := 42 |} in
  let session := {| sessionId := NodeIdNumeric 0 7; attributes := ∅ |} in
  let id := NodeIdNumeric 1 1000 in
  let text :=
    {| value := VString "abc"; sourceTimestamp := None; serverTimestamp := None |} in
  let array :=
    {| value := VInt32Array [1; 2]; sourceTimestamp := None; serverTimestamp := None |} in
  DataSource_write dataSource session id None text = Throws BadVariantAccess
  /\ DataSource_write dataSource session id None array = Throws BadVariantAccess
  /\ ~ (forall dv, exists self',
          DataSource_write dataSource session id None dv
          = Returns (self', UA_STATUSCODE_GOOD)).
Proof.
  intros dataSource session id text array.
  split; [reflexivity|]. split; [reflexivity|].
  intros Hall. destruct (Hall text) as [self' Hw]. discriminate Hw.
Qed.

(** C10 (amended).  For the templated DataSource and every value [x]
    of its element type: a write with a DataValue holding [x] returns
    the good status and a following read yields a DataValue whose value
    is [x]; read leaves the stored data unchanged and returns the good
    status on every call; write returns the good status on every call
    whose DataValue converts to the element type, and on any other call
    the conversion's exception leaves [write] instead of a status. *)
Theorem DataSource_write_then_read
    {T : Type} `{VariantType T} (self : DataSource T) (now : DateTime)
    (session : Session) (id : NodeId) (range : option NumericRange) :
  (forall (x : T) (dv dv0 : DataValue) (timestamp : bool),
      value dv = toVariant x ->
      exists self' dv',
        DataSource_write self session id range dv
        = Returns (self', UA_STATUSCODE_GOOD)
        /\ DataSource_read self' now session id range dv0 timestamp
           = Returns (self', dv', UA_STATUSCODE_GOOD)
        /\ value dv' = toVariant x
        /\ to_ (value dv') = Returns x)
  /\ (forall (dv0 : DataValue) (timestamp : bool),
      exists dv',
        DataSource_read self now session id range dv0 timestamp
        = Returns (self, dv', UA_STATUSCODE_GOOD)
        /\ value dv' = toVariant (data self))
  /\ (forall (dv : DataValue) (x : T),
      to_ (value dv) = Returns x ->
      DataSource_write self session id range dv
      = Returns ({| data := x |}, UA_STATUSCODE_GOOD))
  /\ (forall (dv : DataValue) (e : exn),
      to_ (value dv) = Throws e ->
      DataSource_write self session id range dv = Throws e).
Proof.
  split; [|split; [|split]].
  - intros x dv dv0 timestamp Hdv.
    assert (Hx : to_ (value dv) = Returns x) by (rewrite Hdv; apply to_toVariant).
    destruct (DataSource_read_returns {| data := x |} now session id range dv0 timestamp)
      as (dv' & Hr & Hv & _).
    exists {| data := x |}, dv'.
    split; [apply DataSource_write_returns; exact Hx|].
    split; [exact Hr|]. split; [exact Hv|].
    rewrite Hv. apply to_toVariant.
  - intros dv0 timestamp.
    destruct (DataSource_read_returns self now session id range dv0 timestamp)
      as (dv' & Hr & Hv & _).
    exists dv'. split; assumption.
  - intros dv x. apply DataSource_write_returns.
  - intros dv e. apply DataSource_write_throws.
Qed.

(** The amended C10 on [DataSource<int>]: writing 100 over 42 and
    reading it back, and writing a string. *)
Lemma DataSource_write_then_read_witness :
  let dataSource : DataSource Z := {| data := 42 |} in
  let session := {| sessionId := NodeIdNumeric 0 7; attributes := ∅ |} in
  let id := NodeIdNumeric 1 1000 in
  let empty := {| value := VEmpty; sourceTimestamp := None; serverTimestamp := None |} in
  let hundred :=
    {| value := VInt32 100; sourceTimestamp := None; serverTimestamp := None |} in
  let text :=
    {| value := VString "abc"; sourceTimestamp := None; serverTimestamp := None |} in
  (exists self' dv',
      DataSource_write dataSource session id None hundred
      = Returns (self', UA_STATUSCODE_GOOD)
      /\ DataSource_read self' 0 session id None empty true
         = Returns (self', dv', UA_STATUSCODE_GOOD)
      /\ value dv' = VInt32 100
      /\ scalar_int32 (value dv') = Returns 100)
  /\ DataSource_write dataSource session id None text = Throws BadVariantAccess.
Proof.
  intros dataSource session id empty hundred text. split.
  - exact (proj1 (DataSource_write_then_read dataSource 0 session id None)
             100 hundred empty true eq_refl).
  - exact (proj2 (proj2 (proj2 (DataSource_write_then_read dataSource 0 session id None)))
             text BadVariantAccess eq_refl).
Defined.

End ServerDataSourceSpec.


(** ** The type converter of typeconversion *)

Module TypeConversionSpec.
Import TypeConversion TypeConversion.TypeConverter_std_byte.

Lemma toNative_fromNative (src : UA_Byte) : toNative (fromNative src) = src.
Proof. reflexivity. Qed.

Lemma fromNative_toNative (src : std_byte) : fromNative (toNative src) = src.
Proof. destruct src. reflexivity. Qed.

End TypeConversionSpec.



(** ** The client connect program *)

Module ClientConnectSpec.
Import ClientConnect.

(** The usage test, as a proposition. *)
Lemma usage_requested_iff (parser : CliParser) :
  usage_requested parser = true
  <-> ((nargs parser < 2)%nat
       \/ hasFlag parser "-h" = true
       \/ hasFlag parser "--help" = true).
Proof.
  unfold usage_requested.
  rewrite !orb_true_iff, Nat.ltb_lt. tauto.
Qed.

Lemma usage_not_requested (parser : CliParser) :
  ~ ((nargs parser < 2)%nat
     \/ hasFlag parser "-h" = true
     \/ hasFlag parser "--help" = true) ->
  usage_requested parser = false.
Proof.
  intros Hn. destruct (usage_requested parser) eqn:Hu; [|reflexivity].
  exfalso. apply Hn, usage_requested_iff, Hu.
Qed.

Lemma before_connect_events (parser : CliParser) :
  Client_construct ∈ before_connect parser
  /\ (Client_disconnect ∉ before_connect parser)
  /\ (Node_readValue Server_ServerStatus_CurrentTime ∉ before_connect parser).
Proof.
  unfold before_connect. split; [|split].
  - cbn [app]. do 2 apply list_elem_of_further. apply list_elem_of_here.
  - intros Hin. destruct (value parser "--username");
      cbn [app] in Hin; decompose_list_elem_of; discriminate.
  - intros Hin. destruct (value parser "--username");
      cbn [app] in Hin; decompose_list_elem_of; discriminate.
Qed.

(** C5 (as stated, refuted).  With a server address and no flag, a
    connection that succeeds and a read whose result holds a value
    ([hasValue()] is true) that is not a DateTime, the conversion
    [to<opcua::DateTime>()] throws outside every [try] block: the
    program ends by the exception, returns no code and does not
    disconnect.  With a read that holds a DateTime and a [disconnect]
    that throws, the program ends by that exception and returns no
    code either. *)
Lemma client_connect_uncaught :
  let parser := {| nargs := 2;
                   args := ["client_connect"; "opc.tcp://localhost:4840"];
                   hasFlag := fun _ => false;
                   value := fun _ => None |} in
  let text := {| connect := fun _ => None;
                 readValue := fun _ => UA.ResultValue (UA.VString "12:00");
                 disconnect := None |} in
  let lost := {| connect := fun _ => None;
                 readValue := fun _ => UA.ResultValue (UA.VDateTime 0);
                 disconnect := Some (UA.BadStatus 0x80AE0000) |} in
  usage_requested parser = false
  /\ connect text "opc.tcp://localhost:4840" = None
  /\ UA.hasValue (readValue text Server_ServerStatus_CurrentTime) = true
  /\ main parser text
     = ([cout (ConnectingTo "opc.tcp://localhost:4840");
         cout AuthenticatingAnonymously; Client_construct;
         cout EstablishingConnection;
         Client_connect "opc.tcp://localhost:4840"; cout ConnectSucceeded;
         cout ReadingServerTime;
         Node_readValue Server_ServerStatus_CurrentTime],
        uncaught UA.BadVariantAccess)
  /\ (main parser text).2 <> returned 0
  /\ (Client_disconnect ∉ (main parser text).1)
  /\ connect lost "opc.tcp://localhost:4840" = None
  /\ (main parser lost).2 = uncaught (UA.BadStatus 0x80AE0000)
  /\ (main parser lost).2 <> returned 0.
Proof.
  intros parser text lost.
  assert (Htext : main parser text
     = ([cout (ConnectingTo "opc.tcp://localhost:4840");
         cout AuthenticatingAnonymously; Client_construct;
         cout EstablishingConnection;
         Client_connect "opc.tcp://localhost:4840"; cout ConnectSucceeded;
         cout ReadingServerTime;
         Node_readValue Server_ServerStatus_CurrentTime],
        uncaught UA.BadVariantAccess)) by reflexivity.
  assert (Hlost : (main parser lost).2 = uncaught (UA.BadStatus 0x80AE0000))
    by reflexivity.
  split; [reflexivity|]. split; [reflexivity|]. split; [reflexivity|].
  split; [exact Htext|].
  split; [rewrite Htext; discriminate|].
  split; [rewrite Htext; cbn [fst]; intros Hin; decompose_list_elem_of; discriminate|].
  split; [reflexivity|]. split; [exact Hlost|].
  rewrite Hlost. discriminate.
Qed.

(** C5 (amended).  With fewer than two arguments, or with the flag -h
    or --help, the program prints the usage text and returns 2, and
    does nothing else (no client is constructed).  Otherwise it
    constructs a client and connects to the last argument.  When
    [connect] throws, the exception is caught, reported on the error
    stream, and the program returns 1 without reading or
    disconnecting.  When [connect] returns, the program reads the
    server time and tests the result with [hasValue()]: when the read
    failed, or gave a DateTime, and [disconnect] returns, the program
    reports the read, disconnects and returns 0.  When the read gave a
    value that is no DateTime, the conversion throws
    [BadVariantAccess]: the exception leaves [main], which returns no
    code and does not disconnect.  When [disconnect] throws, that
    exception leaves [main], which returns no code. *)
Theorem client_connect_exit_codes (parser : CliParser) (w : World) :
  let help := (nargs parser < 2)%nat
              \/ hasFlag parser "-h" = true
              \/ hasFlag parser "--help" = true in
  let serverUrl := args parser !!! (nargs parser - 1)%nat in
  let read := Node_readValue Server_ServerStatus_CurrentTime in
  let result := readValue w Server_ServerStatus_CurrentTime in
  let connected :=
    before_connect parser
      ++ [Client_connect serverUrl; cout ConnectSucceeded;
          cout ReadingServerTime; read] in
  (help -> main parser w = ([cout Usage], returned 2))
  /\ (~ help -> forall e, connect w serverUrl = Some e ->
        main parser w
        = (before_connect parser
             ++ [Client_connect serverUrl; cerr (ConnectFailed e)], returned 1)
        /\ (Client_disconnect ∉ (main parser w).1)
        /\ (read ∉ (main parser w).1))
  /\ (~ help -> connect w serverUrl = None ->
      forall report, read_report result = Some report ->
        disconnect w = None ->
        main parser w
        = (connected
             ++ [cout report; cout Disconnecting; Client_disconnect;
                 cout Disconnected],
           returned 0))
  /\ (~ help -> connect w serverUrl = None ->
      read_report result = None ->
        UA.hasValue result = true
        /\ main parser w = (connected, uncaught UA.BadVariantAccess)
        /\ (Client_disconnect ∉ (main parser w).1))
  /\ (~ help -> connect w serverUrl = None ->
      forall report e, read_report result = Some report ->
        disconnect w = Some e ->
        main parser w
        = (connected ++ [cout report; cout Disconnecting; Client_disconnect],
           uncaught e))
  /\ (Client_construct ∈ before_connect parser)
  /\ (Client_disconnect ∉ before_connect parser)
  /\ (read ∉ before_connect parser).
Proof.
  intros help serverUrl read result connected.
  destruct (before_connect_events parser) as (Hc & Hd & Hr).
  assert (Hfail : forall e,
    ~ help -> connect w serverUrl = Some e ->
    main parser w
    = (before_connect parser
         ++ [Client_connect serverUrl; cerr (ConnectFailed e)], returned 1)).
  { intros e Hn He. unfold main.
    rewrite (usage_not_requested parser Hn). fold serverUrl. rewrite He.
    rewrite <- app_assoc. reflexivity. }
  assert (Hread : ~ help -> connect w serverUrl = None ->
    main parser w
    = match result with
      | UA.ResultValue v =>
          match to_DateTime v with
          | None => (connected, uncaught UA.BadVariantAccess)
          | Some dt =>
              disconnect_and_return w (connected ++ [cout (ReadSucceeded dt)])
          end
      | UA.ResultBad status =>
          disconnect_and_return w (connected ++ [cout (ReadFailed status)])
      end).
  { intros Hn He. unfold main.
    rewrite (usage_not_requested parser Hn). fold serverUrl. rewrite He.
    fold result. unfold connected. rewrite <- !app_assoc. reflexivity. }
  split; [|split; [|split; [|split; [|split; [|split; [|split]]]]]].
  - intros Hh. unfold main.
    rewrite (proj2 (usage_requested_iff parser) Hh). reflexivity.
  - intros Hn e He. split; [exact (Hfail e Hn He)|].
    rewrite (Hfail e Hn He). cbn [fst].
    split; intros Hin; apply elem_of_app in Hin as [Hin|Hin];
      try (exact (Hd Hin)); try (exact (Hr Hin));
      decompose_list_elem_of; discriminate.
  - intros Hn He report Hrep Hdis. rewrite (Hread Hn He).
    unfold read_report in Hrep. unfold disconnect_and_return. rewrite Hdis.
    destruct result as [v|status].
    + destruct (to_DateTime v) as [dt|]; [|discriminate Hrep].
      injection Hrep as <-. rewrite <- !app_assoc. reflexivity.
    + injection Hrep as <-. rewrite <- !app_assoc. reflexivity.
  - intros Hn He Hrep. rewrite (Hread Hn He).
    unfold read_report in Hrep.
    destruct result as [v|status]; [|discriminate Hrep].
    destruct (to_DateTime v) as [dt|]; [discriminate Hrep|].
    split; [reflexivity|]. split; [reflexivity|].
    cbn [fst]. unfold connected. intros Hin.
    apply elem_of_app in Hin as [Hin|Hin]; [exact (Hd Hin)|].
    decompose_list_elem_of; discriminate.
  - intros Hn He report e Hrep Hdis. rewrite (Hread Hn He).
    unfold read_report in Hrep. unfold disconnect_and_return. rewrite Hdis.
    destruct result as [v|status].
    + destruct (to_DateTime v) as [dt|]; [|discriminate Hrep].
      injection Hrep as <-. rewrite <- !app_assoc. reflexivity.
    + injection Hrep as <-. rewrite <- !app_assoc. reflexivity.
  - exact Hc.
  - exact Hd.
  - exact Hr.
Qed.

(** The amended C5 at three runs: no server address; a server that
    refuses the connection; a server that answers the read with a bad
    status and lets the client disconnect. *)
Lemma client_connect_exit_codes_witness :
  let short := {| nargs := 1;
                  args := ["client_connect"];
                  hasFlag := fun _ => false;
                  value := fun _ => None |} in
  let parser := {| nargs := 2;
                   args := ["client_connect"; "opc.tcp://localhost:4840"];
                   hasFlag := fun _ => false;
                   value := fun _ => None |} in
  let refuses := {| connect := fun _ => Some (UA.BadStatus 0x80AC0000);
                    readValue := fun _ => UA.ResultBad 0x80340000;
                    disconnect := None |} in
  let answers := {| connect := fun _ => None;
                    readValue := fun _ => UA.ResultBad 0x80340000;
                    disconnect := None |} in
  main short answers = ([cout Usage], returned 2)
  /\ (main parser refuses).2 = returned 1
  /\ (main parser answers).2 = returned 0.
Proof.
  intros short parser refuses answers. split; [|split].
  - apply (proj1 (client_connect_exit_codes short answers)).
    left. cbn. lia.
  - destruct (proj1 (proj2 (client_connect_exit_codes parser refuses))
        ltac:(cbn; intros [H|[H|H]]; [lia|discriminate H|discriminate H])
        (UA.BadStatus 0x80AC0000) eq_refl) as (Hmain & _).
    rewrite Hmain. reflexivity.
  - pose proof (proj1 (proj2 (proj2 (client_connect_exit_codes parser answers)))
        ltac:(cbn; intros [H|[H|H]]; [lia|discriminate H|discriminate H])
        eq_refl (ReadFailed 0x80340000) eq_refl eq_refl) as Hmain.
    rewrite Hmain. reflexivity.
Defined.

End ClientConnectSpec.


(** ** The reconnect loop of client_subscription *)

Module ClientSubscriptionSpec.
Import ClientSubscription.

Lemma final_deliver (st : state) (sig : Z) :
  final (at_ st) = true -> deliver st sig = st.
Proof. intros Hf. unfold deliver. rewrite Hf. reflexivity. Qed.

Lemma final_step (st : state) (r : call_result) :
  final (at_ st) = true -> step st r = st.
Proof.
  intros Hf. unfold step. destruct (at_ st); try discriminate Hf; reflexivity.
Qed.

Lemma final_signals (st : state) (sigs : list Z) :
  final (at_ st) = true -> foldl deliver st sigs = st.
Proof.
  intros Hf. induction sigs as [|sig sigs IH]; [reflexivity|].
  cbn [foldl]. rewrite (final_deliver _ _ Hf). exact IH.
Qed.

Lemma final_advance (st : state) (t : tick) :
  final (at_ st) = true -> advance st t = st.
Proof.
  intros Hf. unfold advance. rewrite (final_signals _ _ Hf).
  apply final_step, Hf.
Qed.

(** A process that has ended stays as it is. *)
Lemma final_run (st : state) (ticks : list tick) :
  final (at_ st) = true -> run st ticks = st.
Proof.
  intros Hf. unfold run. induction ticks as [|t ticks IH]; [reflexivity|].
  cbn [foldl]. rewrite (final_advance _ _ Hf). exact IH.
Qed.

Lemma run_app (st : state) (ticks more : list tick) :
  run st (ticks ++ more) = run (run st ticks) more.
Proof. unfold run. apply foldl_app. Qed.

(** What a signal can do to a process: nothing, run the handler's
    assignment, or end the process. *)
Lemma deliver_cases (st : state) (sig : Z) :
  deliver st sig = st
  \/ deliver st sig = set_isRunning false st
  \/ (final (at_ st) = false /\ deliver st sig = goto (Killed sig) st).
Proof.
  unfold deliver, signalHandler.
  destruct (final (at_ st)); [left; reflexivity|].
  destruct (bool_decide (sig ∈ installed st)).
  - destruct ((sig =? SIGINT) || (sig =? SIGTERM)); [right; left|left]; reflexivity.
  - destruct ((sig =? SIGINT) || (sig =? SIGTERM)); [right; right; split|left]; reflexivity.
Qed.

Lemma deliver_installed (st : state) (sig : Z) :
  installed (deliver st sig) = installed st.
Proof.
  destruct (deliver_cases st sig) as [->|[->|[_ ->]]]; reflexivity.
Qed.

Lemma deliver_trace (st : state) (sig : Z) :
  trace (deliver st sig) = trace st.
Proof.
  destruct (deliver_cases st sig) as [->|[->|[_ ->]]]; reflexivity.
Qed.

Lemma signals_installed (st : state) (sigs : list Z) :
  installed (foldl deliver st sigs) = installed st.
Proof.
  revert st. induction sigs as [|sig sigs IH]; intros st; [reflexivity|].
  cbn [foldl]. rewrite IH. apply deliver_installed.
Qed.

Lemma signals_trace (st : state) (sigs : list Z) :
  trace (foldl deliver st sigs) = trace st.
Proof.
  revert st. induction sigs as [|sig sigs IH]; intros st; [reflexivity|].
  cbn [foldl]. rewrite IH. apply deliver_trace.
Qed.

Lemma step_installed (st : state) (r : call_result) :
  installed (step st r) = installed st.
Proof.
  unfold step. destruct (at_ st), (isRunning st), r as [|ex];
    try destruct (UA.isBadStatus ex); reflexivity.
Qed.

Lemma advance_installed (st : state) (t : tick) :
  installed (advance st t) = installed st.
Proof. unfold advance. rewrite step_installed. apply signals_installed. Qed.

(** Nothing after [start] installs a handler: the process handles
    SIGINT and no other signal, whatever happens. *)
Lemma run_handles_SIGINT_only (ticks : list tick) :
  handles_SIGINT_only (run start ticks).
Proof.
  unfold handles_SIGINT_only, run.
  assert (H : forall st, installed (foldl advance st ticks) = installed st).
  { induction ticks as [|t ticks IH]; intros st; [reflexivity|].
    cbn [foldl]. rewrite IH. apply advance_installed. }
  rewrite H. reflexivity.
Qed.

(** SIGINT runs the handler, which clears the flag. *)
Lemma deliver_SIGINT (st : state) :
  handles_SIGINT_only st -> final (at_ st) = false ->
  deliver st SIGINT = set_isRunning false st.
Proof.
  intros Hi Hf. unfold deliver. rewrite Hf, Hi. reflexivity.
Qed.

(** SIGTERM finds no handler and ends the process. *)
Lemma deliver_SIGTERM (st : state) :
  handles_SIGINT_only st -> final (at_ st) = false ->
  deliver st SIGTERM = goto (Killed SIGTERM) st.
Proof.
  intros Hi Hf. unfold deliver. rewrite Hf, Hi. reflexivity.
Qed.

(** The handler itself would clear the flag for either signal. *)
Lemma signalHandler_clears (st : state) (sig : Z) :
  sig = SIGINT \/ sig = SIGTERM -> isRunning (signalHandler sig st) = false.
Proof. intros [->| ->]; reflexivity. Qed.

(** Once false, the flag stays false. *)
Lemma deliver_keeps_false (st : state) (sig : Z) :
  isRunning st = false -> isRunning (deliver st sig) = false.
Proof.
  intros Hr. destruct (deliver_cases st sig) as [->|[->|[_ ->]]];
    [exact Hr|reflexivity|exact Hr].
Qed.

Lemma signals_keep_false (st : state) (sigs : list Z) :
  isRunning st = false -> isRunning (foldl deliver st sigs) = false.
Proof.
  revert st. induction sigs as [|sig sigs IH]; intros st Hr; [exact Hr|].
  cbn [foldl]. apply IH, deliver_keeps_false, Hr.
Qed.

Lemma step_isRunning (st : state) (r : call_result) :
  isRunning (step st r) = isRunning st.
Proof.
  unfold step. destruct (at_ st), (isRunning st) eqn:Hr, r as [|ex];
    try destruct (UA.isBadStatus ex); cbn; rewrite ?Hr; reflexivity.
Qed.

Lemma advance_keeps_false (st : state) (t : tick) :
  isRunning st = false -> isRunning (advance st t) = false.
Proof.
  intros Hr. unfold advance. rewrite step_isRunning.
  apply signals_keep_false, Hr.
Qed.

Lemma run_keeps_false (st : state) (ticks : list tick) :
  isRunning st = false -> isRunning (run st ticks) = false.
Proof.
  unfold run. revert st. induction ticks as [|t ticks IH]; intros st Hr; [exact Hr|].
  cbn [foldl]. apply IH, advance_keeps_false, Hr.
Qed.

(** With the flag false every step brings [main] closer to its end. *)
Lemma deliver_remaining (st : state) (sig : Z) :
  (remaining (at_ (deliver st sig)) <= remaining (at_ st))%nat.
Proof.
  destruct (deliver_cases st sig) as [->|[->|[_ ->]]]; cbn; lia.
Qed.

Lemma signals_remaining (st : state) (sigs : list Z) :
  (remaining (at_ (foldl deliver st sigs)) <= remaining (at_ st))%nat.
Proof.
  revert st. induction sigs as [|sig sigs IH]; intros st; [reflexivity|].
  cbn [foldl]. etransitivity; [apply IH|apply deliver_remaining].
Qed.

Lemma step_remaining (st : state) (r : call_result) :
  isRunning st = false ->
  (remaining (at_ (step st r)) <= remaining (at_ st) - 1)%nat.
Proof.
  intros Hr. unfold step. rewrite Hr.
  destruct (at_ st) eqn:Hat, r as [|ex]; try destruct (UA.isBadStatus ex);
    cbn; rewrite ?Hat; cbn; lia.
Qed.

Lemma advance_remaining (st : state) (t : tick) :
  isRunning st = false ->
  (remaining (at_ (advance st t)) <= remaining (at_ st) - 1)%nat.
Proof.
  intros Hr. unfold advance.
  pose proof (step_remaining (foldl deliver st (signals t)) (result t)
                (signals_keep_false _ _ Hr)).
  pose proof (signals_remaining st (signals t)). lia.
Qed.

Lemma run_remaining (st : state) (ticks : list tick) :
  isRunning st = false ->
  (remaining (at_ (run st ticks)) <= remaining (at_ st) - length ticks)%nat.
Proof.
  unfold run. revert st. induction ticks as [|t ticks IH]; intros st Hr.
  - cbn. lia.
  - cbn [foldl length].
    pose proof (IH _ (advance_keeps_false st t Hr)).
    pose proof (advance_remaining st t Hr). lia.
Qed.

Lemma remaining_zero (l : location) : remaining l = 0%nat -> final l = true.
Proof. destruct l; cbn; intros; first [reflexivity | lia]. Qed.

Lemma orderly_start : orderly start.
Proof.
  split; [constructor|]. split; [discriminate|]. intros code H. discriminate H.
Qed.

Lemma orderly_deliver (st : state) (sig : Z) :
  orderly st -> orderly (deliver st sig).
Proof.
  intros (Ht & Hd & Hx).
  destruct (deliver_cases st sig) as [->|[->|[Hf ->]]].
  - split; [exact Ht|]. split; assumption.
  - split; [exact Ht|]. split; [reflexivity|].
    intros code Hc. destruct (Hx code Hc) as (-> & _ & Hl).
    split; [reflexivity|]. split; [reflexivity|exact Hl].
  - split; [exact Ht|]. split; [discriminate|]. intros code Hc. discriminate Hc.
Qed.

Lemma orderly_signals (st : state) (sigs : list Z) :
  orderly st -> orderly (foldl deliver st sigs).
Proof.
  revert st. induction sigs as [|sig sigs IH]; intros st Ho; [exact Ho|].
  cbn [foldl]. apply IH, orderly_deliver, Ho.
Qed.

Lemma expected_snoc (tr : list event) (e : event) :
  Forall expected tr -> expected e -> Forall expected (tr ++ [e]).
Proof. intros Ht He. apply Forall_app. split; [exact Ht|]. constructor; [exact He|constructor]. Qed.

Lemma orderly_step (st : state) (r : call_result) :
  orderly st -> orderly (step st r).
Proof.
  intros (Ht & Hd & Hx). unfold step, orderly.
  destruct (at_ st) eqn:Hat.
  - destruct (isRunning st) eqn:Hr; cbn; (split; [exact Ht|]); split;
      try discriminate; try (intros _; exact Hr); intros code Hc; discriminate Hc.
  - destruct r as [|ex]; [|destruct (UA.isBadStatus ex)]; cbn;
      (split; [apply expected_snoc; [exact Ht|reflexivity]|]); split;
      try discriminate; intros code Hc; discriminate Hc.
  - destruct (isRunning st); cbn; (split; [exact Ht|]); split;
      try discriminate; intros code Hc; discriminate Hc.
  - destruct r as [|ex]; [|destruct (UA.isBadStatus ex)]; cbn;
      (split; [apply expected_snoc; [exact Ht|reflexivity]|]); split;
      try discriminate; intros code Hc; discriminate Hc.
  - destruct r as [|ex]; cbn;
      (split; [apply expected_snoc; [exact Ht|exact I]|]); split;
      try discriminate; intros code Hc; discriminate Hc.
  - cbn. split; [apply expected_snoc; [exact Ht|reflexivity]|]. split;
      try discriminate; intros code Hc; discriminate Hc.
  - cbn. split; [apply expected_snoc; [exact Ht|exact I]|]. split; [discriminate|].
    intros code Hc. injection Hc as <-.
    split; [reflexivity|]. split; [exact (Hd eq_refl)|]. apply last_snoc.
  - rewrite Hat. split; [exact Ht|]. split; [discriminate|]. exact Hx.
  - rewrite Hat. split; [exact Ht|]. split; [discriminate|]. exact Hx.
  - rewrite Hat. split; [exact Ht|]. split; [discriminate|]. exact Hx.
Qed.

Lemma orderly_run (st : state) (ticks : list tick) :
  orderly st -> orderly (run st ticks).
Proof.
  unfold run. revert st. induction ticks as [|t ticks IH]; intros st Ho; [exact Ho|].
  cbn [foldl]. apply IH. unfold advance. apply orderly_step, orderly_signals, Ho.
Qed.

(** X5.  In every run, whatever the signals and the library calls
    do, every iteration of the client loop is [runIterate(100)], every
    wait is 3 seconds, every connection goes to the fixed address. *)
Lemma calls_are_fixed (ticks : list tick) (e : event) :
  e ∈ trace (run start ticks) -> expected e.
Proof.
  destruct (orderly_run start ticks orderly_start) as (Ht & _).
  rewrite Forall_forall in Ht. apply Ht.
Qed.

(** A bad status from [connect] or [runIterate] is followed by
    [disconnect], a sleep of 3 seconds, and the outer loop test. *)
Lemma BadStatus_disconnects_and_sleeps (st : state) (code : UA.StatusCode)
    (r : call_result) :
  at_ st = call_connect \/ at_ st = call_runIterate ->
  exists call,
    let st' := step (step (step st (throws (UA.BadStatus code))) returns) r in
    at_ st' = outer_while
    /\ trace st' = trace st ++ [call; Client_disconnect; sleep_for_seconds 3].
Proof.
  intros [Hat|Hat]; unfold step at 3; rewrite Hat; cbn;
    eexists; (split; [reflexivity|]); rewrite <- !app_assoc; reflexivity.
Qed.

(** Once the flag is false, no loop test succeeds again: only a call
    already past its test is still made. *)
Lemma step_iterations (st : state) (r : call_result) :
  isRunning st = false ->
  (iterations (step st r) + pending_iterations (at_ (step st r))
   <= iterations st + pending_iterations (at_ st))%nat
  /\ (connections (step st r) + pending_connections (at_ (step st r))
      <= connections st + pending_connections (at_ st))%nat.
Proof.
  intros Hr. unfold step, iterations, connections. rewrite Hr.
  destruct (at_ st) eqn:Hat, r as [|ex]; try destruct (UA.isBadStatus ex); cbn;
    rewrite ?Hat, ?List.filter_app, ?length_app; cbn; lia.
Qed.

Lemma deliver_iterations (st : state) (sig : Z) :
  iterations (deliver st sig) = iterations st
  /\ connections (deliver st sig) = connections st
  /\ (pending_iterations (at_ (deliver st sig)) <= pending_iterations (at_ st))%nat
  /\ (pending_connections (at_ (deliver st sig)) <= pending_connections (at_ st))%nat.
Proof.
  unfold iterations, connections. rewrite deliver_trace.
  destruct (deliver_cases st sig) as [->|[->|[_ ->]]]; cbn; repeat split; lia.
Qed.

Lemma signals_iterations (st : state) (sigs : list Z) :
  iterations (foldl deliver st sigs) = iterations st
  /\ connections (foldl deliver st sigs) = connections st
  /\ (pending_iterations (at_ (foldl deliver st sigs)) <= pending_iterations (at_ st))%nat
  /\ (pending_connections (at_ (foldl deliver st sigs)) <= pending_connections (at_ st))%nat.
Proof.
  revert st. induction sigs as [|sig sigs IH]; intros st.
  { cbn [foldl]. split; [reflexivity|]. split; [reflexivity|]. split; lia. }
  cbn [foldl]. destruct (IH (deliver st sig)) as (-> & -> & ? & ?).
  destruct (deliver_iterations st sig) as (-> & -> & ? & ?). repeat split; lia.
Qed.

Lemma run_iterations (st : state) (ticks : list tick) :
  isRunning st = false ->
  (iterations (run st ticks) <= iterations st + pending_iterations (at_ st))%nat
  /\ (connections (run st ticks) <= connections st + pending_connections (at_ st))%nat.
Proof.
  intros Hr.
  enough (H : (iterations (run st ticks) + pending_iterations (at_ (run st ticks))
               <= iterations st + pending_iterations (at_ st))%nat
              /\ (connections (run st ticks) + pending_connections (at_ (run st ticks))
                  <= connections st + pending_connections (at_ st))%nat) by lia.
  unfold run. revert st Hr.
  induction ticks as [|t ticks IH]; intros st Hr; [cbn [foldl]; lia|].
  cbn [foldl].
  pose proof (IH _ (advance_keeps_false st t Hr)) as IH'.
  unfold advance in *.
  pose proof (step_iterations (foldl deliver st (signals t)) (result t)
                (signals_keep_false _ _ Hr)).
  pose proof (signals_iterations st (signals t)). lia.
Qed.

(** X4.  SIGINT: the handler clears the flag; after that no loop test
    succeeds (at most the one call already past its test is made), and
    within five steps the process has ended.  Unless an exception
    escaped or a signal without handler arrived, it ended by returning
    0 right after a last [disconnect]. *)
Lemma SIGINT_shuts_down (ticks more : list tick) :
  let st := run start ticks in
  final (at_ st) = false ->
  let cleared := deliver st SIGINT in
  let st' := run cleared more in
  isRunning cleared = false
  /\ isRunning st' = false
  /\ (iterations st' <= iterations st + pending_iterations (at_ st))%nat
  /\ (connections st' <= connections st + pending_connections (at_ st))%nat
  /\ ((5 <= length more)%nat -> final (at_ st') = true)
  /\ (forall code, at_ st' = Exited code ->
        code = 0 /\ last (trace st') = Some Client_disconnect).
Proof.
  intros st Hf cleared st'.
  assert (Hc : cleared = set_isRunning false st)
    by (apply deliver_SIGINT; [apply run_handles_SIGINT_only|exact Hf]).
  assert (Hr : isRunning cleared = false) by (rewrite Hc; reflexivity).
  split; [exact Hr|]. split; [apply run_keeps_false, Hr|].
  destruct (run_iterations cleared more Hr) as (Hi & Hn).
  assert (Hsame : iterations cleared = iterations st
                  /\ connections cleared = connections st
                  /\ at_ cleared = at_ st)
    by (rewrite Hc; repeat split).
  destruct Hsame as (Hsi & Hsc & Hsa). rewrite Hsi, Hsc, Hsa in *.
  split; [exact Hi|]. split; [exact Hn|]. split.
  - intros Hlen. apply remaining_zero.
    pose proof (run_remaining cleared more Hr) as Hrem.
    assert (remaining (at_ st) <= 5)%nat by (destruct (at_ st); cbn; lia).
    fold st' in Hrem. rewrite Hsa in Hrem. lia.
  - intros code Hx.
    assert (Ho : orderly st').
    { apply orderly_run. unfold cleared. apply orderly_deliver.
      apply orderly_run, orderly_start. }
    destruct Ho as (_ & _ & Ho). destruct (Ho code Hx) as (-> & _ & Hl).
    split; [reflexivity|exact Hl].
Qed.

(** C6 (the code at SIGTERM).  [main] installs the handler for SIGINT
    only.  Whenever SIGTERM reaches the running program, the handler
    does not run: the process ends at once with the flag as it was and
    without any further call, so no [disconnect] follows and [main]
    never returns. *)
Theorem SIGTERM_is_not_handled (ticks more : list tick) :
  let st := run start ticks in
  final (at_ st) = false ->
  let st' := run (deliver st SIGTERM) more in
  at_ st' = Killed SIGTERM
  /\ isRunning st' = isRunning st
  /\ trace st' = trace st.
Proof.
  intros st Hf st'.
  assert (Hk : deliver st SIGTERM = goto (Killed SIGTERM) st)
    by (apply deliver_SIGTERM; [apply run_handles_SIGINT_only|exact Hf]).
  unfold st'. rewrite Hk, final_run by reflexivity.
  repeat split.
Qed.

(** The program connected and iterating when SIGTERM arrives: it is
    killed with the flag still true, after [connect] and one
    [runIterate(100)] and no [disconnect]. *)
Lemma SIGTERM_is_not_handled_witness :
  let quiet := {| signals := []; result := returns |} in
  let st' := run (deliver (run start [quiet; quiet; quiet; quiet]) SIGTERM) [quiet] in
  at_ st' = Killed 15
  /\ isRunning st' = true
  /\ trace st' = [Client_connect serverUrl; Client_runIterate 100].
Proof.
  intros quiet st'.
  exact (SIGTERM_is_not_handled [quiet; quiet; quiet; quiet] [quiet] eq_refl).
Defined.

End ClientSubscriptionSpec.


(** ** The asynchronous method calls of client_method_async *)

Module ClientMethodAsyncSpec.
Import ClientMethodAsync.








End ClientMethodAsyncSpec.

(** ** More on the method handlers of server_method *)

Module ServerMethodEdges.
Import UA ServerMethod.

Lemma assign_head {A} (x : A) (xs : list A) (v : A) :
  span_assign (x :: xs) 0 v = Returns (v :: xs).
Proof.
  unfold span_assign. destruct (decide _) as [|Hn]; [reflexivity|].
  exfalso. apply Hn. simpl. lia.
Qed.

Lemma add_fits a b : is_int32 (a + b) = true -> int32_add a b = Returns (a + b).
Proof. intros H. unfold int32_add. rewrite H. reflexivity. Qed.

Lemma add_overflows a b : is_int32 (a + b) = false -> int32_add a b = Undefined.
Proof. intros H. unfold int32_add. rewrite H. reflexivity. Qed.

Lemma transform_fits (values : list Z) (delta : Z) :
  forallb (fun v => is_int32 (v + delta)) values = true ->
  transform (fun v => int32_add v delta) values
  = Returns (map (fun v => v + delta) values).
Proof.
  induction values as [|v vs IH]; [reflexivity|].
  cbn [forallb]. intros [Hv Hvs]%andb_true_iff.
  cbn [transform map]. rewrite (IH Hvs), (add_fits _ _ Hv). reflexivity.
Qed.

Lemma transform_overflows (values : list Z) (delta : Z) :
  forallb (fun v => is_int32 (v + delta)) values = false ->
  transform (fun v => int32_add v delta) values = Undefined.
Proof.
  induction values as [|v vs IH]; [discriminate|].
  cbn [forallb transform].
  destruct (is_int32 (v + delta)) eqn:Hv.
  - cbn [andb]. intros Hvs. rewrite (IH Hvs), (add_fits _ _ Hv). reflexivity.
  - intros _. rewrite (add_overflows _ _ Hv). reflexivity.
Qed.

(** X1.  Every outcome of the Greet handler.  It throws
    [std::out_of_range] when the input span is empty, throws
    [BadVariantAccess] when the first input is not a string scalar,
    throws [std::out_of_range] when the output span is empty, and
    otherwise returns having replaced the first output by "Hello "
    followed by the name: further inputs are ignored, further outputs
    and the input span are left as they were. *)
Theorem Greet_outcomes (fr : CallFrame) :
  Greet fr
  = match input fr with
    | [] => Throws out_of_range
    | VString name :: _ =>
        match output fr with
        | [] => Throws out_of_range
        | _ :: outs =>
            Returns {| input := input fr;
                       output := VString ("Hello " +:+ name) :: outs |}
        end
    | _ :: _ => Throws BadVariantAccess
    end.
Proof.
  destruct fr as [ins outs]. unfold Greet. cbn [input output].
  destruct ins as [|v ins]; [reflexivity|].
  destruct v; try reflexivity.
  destruct outs as [|o outs]; [reflexivity|].
  cbn. rewrite assign_head. reflexivity.
Qed.

(** X2.  Every outcome of the IncInt32ArrayValues handler, for input
    and output spans of any length.  The first input is read before
    the second: no first input throws [std::out_of_range], a first
    input that is not an int32 array throws [BadVariantAccess] even
    when the second is missing; then a missing second input throws
    [std::out_of_range] and one that is not an int32 scalar throws
    [BadVariantAccess].  With both inputs of the right type the sums
    are computed before the output span is touched: an overflowing sum
    is undefined behaviour, an empty output span throws
    [std::out_of_range], and otherwise the first output is replaced by
    the array of sums, of any length (the declared length 5 is not
    checked by the handler). *)
Theorem IncInt32ArrayValues_outcomes (fr : CallFrame) :
  IncInt32ArrayValues fr
  = match input fr with
    | [] => Throws out_of_range
    | VInt32Array values :: [] => Throws out_of_range
    | VInt32Array values :: VInt32 delta :: _ =>
        if forallb (fun v => is_int32 (v + delta)) values then
          match output fr with
          | [] => Throws out_of_range
          | _ :: outs =>
              Returns {| input := input fr;
                         output := VInt32Array (map (fun v => v + delta) values)
                                   :: outs |}
          end
        else Undefined
    | VInt32Array values :: _ :: _ => Throws BadVariantAccess
    | _ :: _ => Throws BadVariantAccess
    end.
Proof.
  destruct fr as [ins outs]. unfold IncInt32ArrayValues. cbn [input output].
  destruct ins as [|v ins]; [reflexivity|].
  destruct v as [| | | | | |values]; try reflexivity.
  destruct ins as [|d ins]; [reflexivity|].
  destruct d as [| | |delta| | |]; try reflexivity.
  cbn. destruct (forallb (fun v => is_int32 (v + delta)) values) eqn:Hfit.
  - rewrite (transform_fits _ _ Hfit). cbn.
    destruct outs as [|o outs]; [reflexivity|].
    rewrite assign_head. reflexivity.
  - rewrite (transform_overflows _ _ Hfit). reflexivity.
Qed.

Lemma fits_forallb (values : list Z) (delta : Z) :
  Forall (fun v => is_int32 (v + delta) = true) values ->
  forallb (fun v => is_int32 (v + delta)) values = true.
Proof.
  induction 1 as [|v vs Hv _ IH]; [reflexivity|].
  cbn [forallb]. rewrite Hv, IH. reflexivity.
Qed.

(** X3.  Calls of IncInt32ArrayValues compose.  When every
    [values[i] + d1] and every [values[i] + d1 + d2] fits in an int32,
    incrementing by [d1] and then incrementing the result by [d2]
    gives the array incremented by [d1 + d2]; in particular
    incrementing by [d1] and then by [-d1] gives back an array of
    int32 values unchanged. *)
Theorem IncInt32ArrayValues_composes (values : list Z) (d1 d2 : Z) (o : Variant) :
  Forall (fun v => is_int32 (v + d1) = true) values ->
  Forall (fun v => is_int32 (v + d1 + d2) = true) values ->
  exists r1,
    IncInt32ArrayValues {| input := [VInt32Array values; VInt32 d1]; output := [o] |}
    = Returns {| input := [VInt32Array values; VInt32 d1];
                 output := [VInt32Array r1] |}
    /\ IncInt32ArrayValues {| input := [VInt32Array r1; VInt32 d2]; output := [o] |}
       = Returns {| input := [VInt32Array r1; VInt32 d2];
                    output := [VInt32Array (map (fun v => v + (d1 + d2)) values)] |}
    /\ (d2 = - d1 -> map (fun v => v + (d1 + d2)) values = values).
Proof.
  intros H1 H2. exists (map (fun v => v + d1) values).
  split; [|split].
  - rewrite IncInt32ArrayValues_outcomes. cbn [input output].
    rewrite (fits_forallb _ _ H1). reflexivity.
  - rewrite IncInt32ArrayValues_outcomes. cbn [input output].
    rewrite fits_forallb.
    + rewrite map_map.
      rewrite (map_ext (fun x => x + d1 + d2) (fun v => v + (d1 + d2)))
        by (intros v; lia).
      reflexivity.
    + apply Forall_map. exact H2.
  - intros ->. rewrite <- (map_id values) at 2.
    apply map_ext. intros v. lia.
Qed.

(** X3 at [1; 2; 3] with the increments 5 and -5. *)
Lemma IncInt32ArrayValues_composes_witness :
  exists r1,
    IncInt32ArrayValues
      {| input := [VInt32Array [1; 2; 3]; VInt32 5]; output := [VEmpty] |}
    = Returns {| input := [VInt32Array [1; 2; 3]; VInt32 5];
                 output := [VInt32Array r1] |}
    /\ IncInt32ArrayValues
         {| input := [VInt32Array r1; VInt32 (-5)]; output := [VEmpty] |}
       = Returns {| input := [VInt32Array r1; VInt32 (-5)];
                    output := [VInt32Array (map (fun v => v + (5 + -5)) [1; 2; 3])] |}
    /\ (-5 = - 5 -> map (fun v => v + (5 + -5)) [1; 2; 3] = [1; 2; 3]).
Proof.
  apply (IncInt32ArrayValues_composes [1; 2; 3] 5 (-5) VEmpty);
    repeat constructor.
Defined.

End ServerMethodEdges.

(** ** More on the reconnect loop of client_subscription *)

Module ClientSubscriptionMore.
Import ClientSubscription ClientSubscriptionRuns.

Lemma deliver_other_signal (st : state) (sig : Z) :
  installed st = [SIGINT] -> sig <> SIGINT ->
  deliver st sig = st \/ deliver st sig = goto (Killed sig) st.
Proof.
  intros Hi Hs. unfold deliver. destruct (final (at_ st)); [left; reflexivity|].
  rewrite Hi. rewrite bool_decide_eq_false_2.
  - destruct ((sig =? SIGINT) || (sig =? SIGTERM)); [right|left]; reflexivity.
  - intros Hin. apply list_elem_of_singleton in Hin. exact (Hs Hin).
Qed.

Lemma looping_deliver (st : state) (sig : Z) :
  sig <> SIGINT ->
  installed st = [SIGINT] /\ isRunning st = true
  /\ at_ st <> final_disconnect /\ (forall code, at_ st <> Exited code) ->
  installed (deliver st sig) = [SIGINT] /\ isRunning (deliver st sig) = true
  /\ at_ (deliver st sig) <> final_disconnect
  /\ (forall code, at_ (deliver st sig) <> Exited code).
Proof.
  intros Hs (Hi & Hr & Hd & Hx).
  destruct (deliver_other_signal st sig Hi Hs) as [-> | ->].
  - repeat split; assumption.
  - cbn. repeat split; try assumption; discriminate.
Qed.

Lemma looping_signals (st : state) (sigs : list Z) :
  SIGINT ∉ sigs ->
  installed st = [SIGINT] /\ isRunning st = true
  /\ at_ st <> final_disconnect /\ (forall code, at_ st <> Exited code) ->
  installed (foldl deliver st sigs) = [SIGINT]
  /\ isRunning (foldl deliver st sigs) = true
  /\ at_ (foldl deliver st sigs) <> final_disconnect
  /\ (forall code, at_ (foldl deliver st sigs) <> Exited code).
Proof.
  revert st. induction sigs as [|sig sigs IH]; intros st Hn H; [exact H|].
  cbn [foldl]. apply IH.
  - intros Hin. apply Hn. apply list_elem_of_further, Hin.
  - apply looping_deliver; [|exact H].
    intros ->. apply Hn. apply list_elem_of_here.
Qed.

Lemma looping_step (st : state) (r : call_result) :
  installed st = [SIGINT] /\ isRunning st = true
  /\ at_ st <> final_disconnect /\ (forall code, at_ st <> Exited code) ->
  installed (step st r) = [SIGINT] /\ isRunning (step st r) = true
  /\ at_ (step st r) <> final_disconnect
  /\ (forall code, at_ (step st r) <> Exited code).
Proof.
  intros (Hi & Hr & Hd & Hx). unfold step. rewrite Hr.
  destruct (at_ st) eqn:Hat; try congruence;
    try (destruct r as [|ex]; try destruct (UA.isBadStatus ex));
    cbn; rewrite ?Hat; repeat split; try assumption; try discriminate.
  all: exfalso; eapply Hx; reflexivity.
Qed.

(** X7.  [main] returns only after a SIGINT.  In every run in which
    no SIGINT arrives, whatever the library calls do and whatever other
    signals arrive, the flag stays true and [main] neither reaches its
    last [disconnect] nor returns: the program keeps connecting and
    iterating until it is interrupted, killed, or ended by an exception
    that escapes. *)
Theorem returns_only_after_SIGINT (ticks : list tick) :
  (forall t, t ∈ ticks -> SIGINT ∉ signals t) ->
  let st := run start ticks in
  isRunning st = true
  /\ at_ st <> final_disconnect
  /\ (forall code, at_ st <> Exited code).
Proof.
  intros Hq st.
  enough (H : installed st = [SIGINT] /\ isRunning st = true
              /\ at_ st <> final_disconnect
              /\ (forall code, at_ st <> Exited code)) by (apply H).
  unfold st, run.
  assert (H0 : installed start = [SIGINT] /\ isRunning start = true
               /\ at_ start <> final_disconnect
               /\ (forall code, at_ start <> Exited code)).
  { repeat split; discriminate. }
  revert H0. generalize start. clear st.
  induction ticks as [|t ticks IH]; intros st H0; [exact H0|].
  cbn [foldl]. apply IH.
  - intros t' Hin. apply Hq. apply list_elem_of_further, Hin.
  - unfold advance. apply looping_step, looping_signals; [|exact H0].
    apply Hq. apply list_elem_of_here.
Qed.

(** X7 at a run of six steps in which [runIterate] fails once and
    SIGTERM does not arrive. *)
Lemma returns_only_after_SIGINT_witness :
  let quiet := {| signals := []; result := returns |} in
  let failing := {| signals := [1]; result := throws (UA.BadStatus 0x80AE0000) |} in
  let st := run start [quiet; quiet; quiet; failing; quiet; quiet] in
  isRunning st = true
  /\ at_ st <> final_disconnect
  /\ (forall code, at_ st <> Exited code).
Proof.
  intros quiet failing.
  apply (returns_only_after_SIGINT [quiet; quiet; quiet; failing; quiet; quiet]).
  intros t Hin Hs.
  repeat (apply elem_of_cons in Hin as [-> | Hin]);
    [| | | | | |inversion Hin]; cbn in Hs;
    repeat (apply elem_of_cons in Hs as [Hs | Hs]; [discriminate Hs|]);
    inversion Hs.
Defined.

(** X6.  The loop reconnects after a bad status.  While the flag is
    true and no signal arrives, a [BadStatus] thrown by [connect] or by
    [runIterate] is followed by exactly these calls: [disconnect], a
    sleep of 3 seconds, and [connect] to the same address; after that
    [main] is back at the test of the inner loop. *)
Theorem BadStatus_reconnects (st : state) (code : UA.StatusCode) (r3 r4 : call_result) :
  isRunning st = true ->
  at_ st = call_connect \/ at_ st = call_runIterate ->
  let failed := if decide (at_ st = call_connect)
                then Client_connect serverUrl else Client_runIterate 100 in
  let st' := run st [quiet_tick (throws (UA.BadStatus code)); quiet_tick returns;
                     quiet_tick r3; quiet_tick r4; quiet_tick returns] in
  at_ st' = inner_while
  /\ isRunning st' = true
  /\ trace st' = trace st ++ [failed; Client_disconnect; sleep_for_seconds 3;
                              Client_connect serverUrl].
Proof.
  intros Hr Hat failed st'. subst failed st'.
  destruct st as [running handlers loc tr]. cbn in Hr, Hat. subst running.
  unfold run, advance, quiet_tick. cbn [foldl signals result at_ trace isRunning].
  destruct Hat as [-> | ->]; cbn;
    (destruct (decide _) as [Heq|Hne]; [try discriminate Heq|try congruence]);
    rewrite <- ?app_assoc; repeat split.
Qed.

(** X6 at the connected, iterating program. *)
Lemma BadStatus_reconnects_witness :
  let st := run start [quiet_tick returns; quiet_tick returns; quiet_tick returns] in
  let st' := run st [quiet_tick (throws (UA.BadStatus 0x80AE0000)); quiet_tick returns;
                     quiet_tick returns; quiet_tick returns; quiet_tick returns] in
  at_ st' = inner_while
  /\ isRunning st' = true
  /\ trace st' = trace st ++ [Client_runIterate 100; Client_disconnect;
                              sleep_for_seconds 3; Client_connect serverUrl].
Proof.
  intros st.
  exact (BadStatus_reconnects st 0x80AE0000 returns returns eq_refl
           (or_intror eq_refl)).
Defined.

(** X4 at the connected, iterating program: interrupted, it makes no
    further call but the last [disconnect] and has returned 0 within
    five steps. *)
Lemma SIGINT_shuts_down_witness :
  let ticks := [quiet_tick returns; quiet_tick returns; quiet_tick returns] in
  let more := [quiet_tick returns; quiet_tick returns; quiet_tick returns;
               quiet_tick returns; quiet_tick returns] in
  let st := run start ticks in
  let cleared := deliver st SIGINT in
  let st' := run cleared more in
  isRunning cleared = false
  /\ isRunning st' = false
  /\ (iterations st' <= iterations st + pending_iterations (at_ st))%nat
  /\ (connections st' <= connections st + pending_connections (at_ st))%nat
  /\ ((5 <= length more)%nat -> final (at_ st') = true)
  /\ (forall code, at_ st' = Exited code ->
        code = 0 /\ last (trace st') = Some Client_disconnect).
Proof.
  intros ticks more.
  exact (ClientSubscriptionSpec.SIGINT_shuts_down ticks more eq_refl).
Defined.

(** X5 at the first iteration of a run. *)
Lemma calls_are_fixed_witness :
  let ticks := [quiet_tick returns; quiet_tick returns; quiet_tick returns;
                quiet_tick returns] in
  Client_runIterate 100 ∈ trace (run start ticks)
  /\ expected (Client_runIterate 100).
Proof.
  intros ticks.
  assert (Hin : Client_runIterate 100 ∈ trace (run start ticks))
    by (apply list_elem_of_further, list_elem_of_here).
  split; [exact Hin|].
  exact (ClientSubscriptionSpec.calls_are_fixed ticks (Client_runIterate 100) Hin).
Defined.

End ClientSubscriptionMore.

(** ** More on the client connect program *)

Module ClientConnectMore.
Import ClientConnect.

Ltac is_member :=
  solve [ repeat first [ apply list_elem_of_here | apply list_elem_of_further ] ].

Ltac absurd_member H :=
  exfalso; decompose_list_elem_of; discriminate.

Ltac settle :=
  repeat match goal with
         | |- _ /\ _ => split
         | |- _ <-> _ => split
         | |- _ -> _ => intro
         | H : _ /\ _ |- _ => destruct H
         | H : _ \/ _ |- _ => destruct H
         | H : exists _, _ |- _ => destruct H
         | H : ?x <> ?x |- _ => exfalso; exact (H eq_refl)
         | H : _ ∈ _ |- _ => absurd_member H
         | |- _ ∈ _ => is_member
         | |- _ <> _ => discriminate
         | |- ?x = ?x => reflexivity
         | _ => discriminate
         | _ => congruence
         end.

Ltac which_ending :=
  first [ left; reflexivity
        | right; left; reflexivity
        | right; right; left; reflexivity
        | right; right; right; eexists; reflexivity ].

(** X8.  How the program ended tells what it did, for every parser
    and every behaviour of the library.  It returns 0, 1 or 2, or an
    exception leaves it.  A client is constructed and [connect] is
    called exactly when it does not return 2; the server time is read
    exactly when it returns neither 2 nor 1.  It returns 0 exactly when
    the usage text was not requested, [connect] returned, the read
    failed or gave a DateTime, and [disconnect] returned.  [disconnect]
    is called exactly when the usage text was not requested, [connect]
    returned and the read failed or gave a DateTime; so after a failed
    connection (code 1) the program neither reads nor calls
    [disconnect], and after a failed conversion it leaves the client
    connected. *)
Theorem exit_code_tells (parser : CliParser) (w : World) :
  let events := (main parser w).1 in
  let ending := (main parser w).2 in
  let serverUrl := args parser !!! (nargs parser - 1)%nat in
  let result := readValue w Server_ServerStatus_CurrentTime in
  (ending = returned 0 \/ ending = returned 1 \/ ending = returned 2
   \/ exists e, ending = uncaught e)
  /\ (Client_construct ∈ events <-> ending <> returned 2)
  /\ (Client_connect serverUrl ∈ events <-> ending <> returned 2)
  /\ (Node_readValue Server_ServerStatus_CurrentTime ∈ events
      <-> ending <> returned 2 /\ ending <> returned 1)
  /\ (ending = returned 0
      <-> usage_requested parser = false /\ connect w serverUrl = None
          /\ read_report result <> None /\ disconnect w = None)
  /\ (Client_disconnect ∈ events
      <-> usage_requested parser = false /\ connect w serverUrl = None
          /\ read_report result <> None).
Proof.
  intros events ending serverUrl result. subst events ending.
  unfold main, disconnect_and_return, before_connect, read_report.
  fold serverUrl. fold result.
  destruct (usage_requested parser); [cbn; split; [which_ending|settle]|].
  destruct (value parser "--username") as [u|];
    (destruct (connect w serverUrl) as [e|];
     [cbn; split; [which_ending|settle]|]);
    (destruct result as [v|status];
     [destruct (to_DateTime v) as [dt|]|]);
    try (destruct (disconnect w) as [e|]);
    cbn; (split; [which_ending|settle]).
Qed.

(** X9.  The user identity is configured from [--username] alone.  A
    call [setUserIdentityToken u p] is made exactly when the usage text
    is not printed and [--username] has the value [u], and then [p] is
    the value of [--password], or the empty string without one.  A
    [--password] without [--username] is ignored: the client connects
    anonymously. *)
Theorem identity_from_username (parser : CliParser) (w : World) (u p : string) :
  setUserIdentityToken u p ∈ (main parser w).1
  <-> usage_requested parser = false
      /\ value parser "--username" = Some u
      /\ p = default EmptyString (value parser "--password").
Proof.
  unfold main, disconnect_and_return, before_connect.
  destruct (usage_requested parser).
  { cbn. split; [intros Hm; absurd_member Hm|intros [Hu _]; discriminate Hu]. }
  destruct (value parser "--username") as [u'|];
    (destruct (connect w _) as [e|];
     [|destruct (readValue w Server_ServerStatus_CurrentTime) as [v|status];
       [destruct (to_DateTime v) as [dt|]|];
       try destruct (disconnect w) as [e|]]);
    cbn; (split;
    [ intros Hm; decompose_list_elem_of; try discriminate;
      match goal with
      | Heq : setUserIdentityToken _ _ = setUserIdentityToken _ _ |- _ =>
          injection Heq as -> ->
      end; repeat split
    | intros (_ & Hu & Hp);
      first [ discriminate Hu | injection Hu as ->; subst p; is_member ] ]).
Qed.

End ClientConnectMore.

(** ** More on the access control of server_accesscontrol *)

Module ServerAccessControlMore.
Import UA ServerAccessControl.

(** The boolean [activateSession] stores for a token. *)
Lemma activateSession_session (self : AccessControlCustom) (session : Session)
    (ep : EndpointDescription) (cert : ByteString) (tok : ExtensionObject) :
  exists isAdmin : bool,
    (AccessControlCustom_activateSession self session ep cert tok).1
    = setSessionAttribute session isAdminKey (VBoolean isAdmin)
    /\ (isAdmin = true <-> logs_in_as_admin tok).
Proof.
  eexists. split; [reflexivity|].
  unfold logs_in_as_admin. split.
  - destruct (decodedData_UserNameIdentityToken tok) as [t|]; [|discriminate].
    intros Heq%String.eqb_eq. exists t. split; [reflexivity|exact Heq].
  - intros (t & -> & Hname). apply String.eqb_eq. exact Hname.
Qed.

(** X10.  The last login decides.  When a session is activated twice,
    the attribute store afterwards is the store before the first
    activation with "isAdmin" set by the second token alone; the
    session id and every other attribute are untouched.  So a session
    activated as admin and then re-activated with any other token has
    read access only, and the other way round. *)
Theorem last_activation_decides (self : AccessControlCustom) (session : Session)
    (ep1 ep2 : EndpointDescription) (cert1 cert2 : ByteString)
    (tok1 tok2 : ExtensionObject) (nodeId : NodeId) :
  let once := (AccessControlCustom_activateSession self session ep1 cert1 tok1).1 in
  let twice := (AccessControlCustom_activateSession self once ep2 cert2 tok2).1 in
  exists isAdmin : bool,
    (isAdmin = true <-> logs_in_as_admin tok2)
    /\ sessionId twice = sessionId session
    /\ attributes twice = <[isAdminKey := VBoolean isAdmin]> (attributes session)
    /\ AccessControlCustom_getUserAccessLevel self twice nodeId
       = Returns (if isAdmin then Z.lor CurrentRead CurrentWrite else CurrentRead).
Proof.
  intros once twice.
  destruct (activateSession_session self session ep1 cert1 tok1) as (b1 & H1 & _).
  destruct (activateSession_session self once ep2 cert2 tok2) as (b2 & H2 & Hb2).
  fold once in H1. fold twice in H2.
  exists b2. split; [exact Hb2|].
  rewrite H2, H1. cbn [setSessionAttribute sessionId attributes].
  split; [reflexivity|]. split; [apply insert_insert_eq|].
  unfold AccessControlCustom_getUserAccessLevel, getSessionAttribute,
    setSessionAttribute.
  cbn [attributes]. rewrite lookup_insert_eq. destruct b2; reflexivity.
Qed.

End ServerAccessControlMore.

(** ** More on the data source of server_datasource *)

Module ServerDataSourceMore.
Import UA ServerDataSource.

(** X11.  The last write wins, and reading is repeatable.  After a
    write of [x] and then a write of [y], both held by their
    DataValues, a read returns [y], whatever the DataValue handed to
    [read] held before; a second read returns the same value and the
    stored data is still [y].  A read sets the source timestamp to the
    current time exactly when asked to and never touches the server
    timestamp. *)
Theorem last_write_wins
    {T : Type} `{VariantType T} (self : DataSource T) (now1 now2 : DateTime)
    (session : Session) (id : NodeId) (range : option NumericRange)
    (x y : T) (t1 t2 t3 t4 : option DateTime) (dv0 : DataValue)
    (timestamp : bool) :
  let dvx := {| value := toVariant x; sourceTimestamp := t1; serverTimestamp := t2 |} in
  let dvy := {| value := toVariant y; sourceTimestamp := t3; serverTimestamp := t4 |} in
  exists dv1 dv2,
    ('(s1, _) ← DataSource_write self session id range dvx;
     '(s2, _) ← DataSource_write s1 session id range dvy;
     '(s3, dv1, _) ← DataSource_read s2 now1 session id range dv0 timestamp;
     DataSource_read s3 now2 session id range dv1 false)
    = Returns ({| data := y |}, dv2, UA_STATUSCODE_GOOD)
    /\ DataSource_read {| data := y |} now1 session id range dv0 timestamp
       = Returns ({| data := y |}, dv1, UA_STATUSCODE_GOOD)
    /\ value dv1 = toVariant y
    /\ dv2 = dv1
    /\ sourceTimestamp dv1 = (if timestamp then Some now1 else sourceTimestamp dv0)
    /\ serverTimestamp dv1 = serverTimestamp dv0.
Proof.
  intros dvx dvy. unfold DataSource_write, DataSource_read.
  cbn [value dvx dvy]. rewrite !to_toVariant. cbn.
  eexists _, _. split; [reflexivity|]. split; [reflexivity|].
  destruct timestamp; repeat split.
Qed.

End ServerDataSourceMore.

(** ** The recursive browse of client_browse *)

Module ClientBrowseSpec.
Import ClientBrowse.

(** The levels whose doubling is a non-negative [int]. *)
Lemma indent_fits (level : Z) :
  0 <= level < 2 ^ 30 ->
  UA.is_int32 (level * 2) = true /\ (level * 2 <? 0) = false.
Proof.
  intros Hl. unfold UA.is_int32, UA.INT32_MIN, UA.INT32_MAX. split.
  - apply andb_true_iff. split; apply Z.leb_le; lia.
  - apply Z.ltb_ge. lia.
Qed.


Lemma for_each_returned {A : Type} (body : A -> list output * ending) (l : list A) :
  (forall x, x ∈ l -> (body x).2 = returned) ->
  for_each body l = (flat_map (fun x => (body x).1) l, returned).
Proof.
  induction l as [|x l IH]; intros Hret; [reflexivity|].
  cbn [for_each flat_map].
  pose proof (Hret x (list_elem_of_here _ _)) as Hx.
  destruct (body x) as [out e]. cbn [snd] in Hx. subst e. cbn [fst].
  rewrite IH; [reflexivity|].
  intros y Hy. apply Hret, list_elem_of_further, Hy.
Qed.


(** The equation of the function where no indent overflows: the node
    is browsed and, on success, every reference is printed and
    descended into, one level deeper; the call returns. *)
Lemma browse_levels_in_range (w : Server) (depth : nat) (node : UA.NodeId) (level : Z) :
  0 <= level -> level + Z.of_nat depth <= 2 ^ 30 ->
  browse_levels w depth node level
  = (match depth with
     | O => []
     | S depth' =>
         services_browse node ::
         match w node with
         | browse_ok references =>
             found_references (Z.to_nat (level * 2)) (length references) ::
             flat_map
               (fun reference =>
                  reference_line (Z.to_nat (level * 2)) (browseName reference)
                    (string_identifier (nodeId reference))
                  :: (browse_levels w depth' (nodeId reference) (level + 1)).1)
               references
         | browse_bad status => [browse_failed (Z.to_nat (level * 2)) status]
         | browse_throws e => [browse_exception (Z.to_nat (level * 2)) (library e)]
         end
     end, returned).
Proof.
  revert node level. induction depth as [|depth IH]; intros node level Hl Hmax;
    [reflexivity|].
  cbn [browse_levels].
  destruct (indent_fits level ltac:(lia)) as [-> ->]. cbn [negb].
  destruct (w node) as [references|status|e]; [|reflexivity|reflexivity].
  rewrite for_each_returned.
  - cbn [try_catch]. do 3 f_equal.
    apply flat_map_ext. intros reference.
    destruct (browse_levels w depth (nodeId reference) (level + 1)); reflexivity.
  - intros reference _. rewrite IH by lia. reflexivity.
Qed.

(** The function, by its own text. *)
Lemma browseNodeRecursively_unfold (w : Server) (node : UA.NodeId) (level maxLevel : Z) :
  browseNodeRecursively w node level maxLevel
  = if level >=? maxLevel then ([], returned)
    else if negb (UA.is_int32 (level * 2)) then ([], undefined)
    else if level * 2 <? 0 then ([], thrown length_error)
    else
      let indent := Z.to_nat (level * 2) in
      try_catch indent
        match w node with
        | browse_throws e => ([services_browse node], thrown (library e))
        | browse_bad status =>
            ([services_browse node; browse_failed indent status], returned)
        | browse_ok references =>
            let '(out, e) :=
              for_each
                (fun reference =>
                   let '(out, e) :=
                     browseNodeRecursively w (nodeId reference) (level + 1) maxLevel in
                   (reference_line indent (browseName reference)
                      (string_identifier (nodeId reference)) :: out, e))
                references in
            (services_browse node
               :: found_references indent (length references) :: out, e)
        end.
Proof.
  unfold browseNodeRecursively.
  destruct (Z.geb_spec level maxLevel) as [Hdone|Hbelow].
  - replace (Z.to_nat (maxLevel - level)) with O by lia. reflexivity.
  - replace (Z.to_nat (maxLevel - level))
      with (S (Z.to_nat (maxLevel - (level + 1)))) by lia.
    reflexivity.
Qed.

Lemma browsed_within (w : Server) (depth : nat) (node : UA.NodeId) (level : Z)
    (n : UA.NodeId) :
  0 <= level -> level + Z.of_nat depth <= 2 ^ 30 ->
  services_browse n ∈ (browse_levels w depth node level).1 ->
  (1 <= depth)%nat /\ within w (depth - 1) node n.
Proof.
  revert node level. induction depth as [|depth IH]; intros node level Hl Hmax Hin.
  - cbn in Hin. inversion Hin.
  - split; [lia|]. replace (S depth - 1)%nat with depth by lia.
    rewrite browse_levels_in_range in Hin by assumption. cbn [fst] in Hin.
    apply elem_of_cons in Hin as [Heq|Hin].
    { injection Heq as ->. destruct depth; left; reflexivity. }
    destruct (w node) as [references|status|e] eqn:Hw.
    + apply elem_of_cons in Hin as [Heq|Hin]; [discriminate Heq|].
      apply list_elem_of_In, in_flat_map in Hin as (reference & Hr & Hin).
      apply list_elem_of_In in Hin, Hr.
      apply elem_of_cons in Hin as [Heq|Hin]; [discriminate Heq|].
      destruct (IH (nodeId reference) (level + 1) ltac:(lia) ltac:(lia) Hin)
        as (Hd & Hwithin).
      destruct depth as [|depth']; [lia|].
      replace (S depth' - 1)%nat with depth' in Hwithin by lia.
      right. exists references, reference. repeat split; assumption.
    + apply elem_of_cons in Hin as [Heq|Hin]; [discriminate Heq|inversion Hin].
    + apply elem_of_cons in Hin as [Heq|Hin]; [discriminate Heq|inversion Hin].
Qed.

Lemma within_browsed (w : Server) (k : nat) (node : UA.NodeId) (level : Z)
    (n : UA.NodeId) :
  0 <= level -> level + Z.of_nat (S k) <= 2 ^ 30 ->
  within w k node n ->
  services_browse n ∈ (browse_levels w (S k) node level).1.
Proof.
  revert node level. induction k as [|k IH]; intros node level Hl Hmax Hwithin;
    rewrite browse_levels_in_range by assumption; cbn [fst].
  - destruct Hwithin as [->|[]]. apply list_elem_of_here.
  - destruct Hwithin as [->|(references & reference & Hw & Hr & Hwithin)].
    { apply list_elem_of_here. }
    rewrite Hw.
    do 2 apply list_elem_of_further.
    apply list_elem_of_In, in_flat_map. exists reference.
    split; [apply list_elem_of_In, Hr|].
    apply list_elem_of_In, list_elem_of_further.
    apply IH; [lia|lia|exact Hwithin].
Qed.

(** X12.  The depth limit.  At or above [maxLevel] the function does
    nothing.  Below it, from a level that is not negative and with a
    [maxLevel] of at most 2^30 (so that no indent overflows), it always
    returns, and it browses exactly the nodes that lie at most
    [maxLevel - level - 1] references below the start node along
    successfully browsed nodes; so it ends on every address space,
    cyclic ones included, and with one level left it browses the start
    node only.  With a negative level below [maxLevel] it browses
    nothing: from -2^30 on, building the indent string throws
    [std::length_error]; below -2^30, and from 2^30 on, the product
    [level * 2] overflows and the behaviour is undefined. *)
Theorem browse_depth_limit (w : Server) (root : UA.NodeId) (level maxLevel : Z) :
  (maxLevel <= level -> browseNodeRecursively w root level maxLevel = ([], returned))
  /\ (0 <= level < maxLevel -> maxLevel <= 2 ^ 30 ->
      exists out,
        browseNodeRecursively w root level maxLevel = (out, returned)
        /\ (forall n, services_browse n ∈ out
                      <-> within w (Z.to_nat (maxLevel - level) - 1) root n)
        /\ (maxLevel = level + 1 -> List.filter is_browse out = [services_browse root]))
  /\ (- 2 ^ 30 <= level < 0 -> level < maxLevel ->
      browseNodeRecursively w root level maxLevel = ([], thrown length_error))
  /\ (level < - 2 ^ 30 \/ 2 ^ 30 <= level -> level < maxLevel ->
      browseNodeRecursively w root level maxLevel = ([], undefined)).
Proof.
  unfold browseNodeRecursively. split; [|split; [|split]].
  - intros Hl. replace (Z.to_nat (maxLevel - level)) with O by lia. reflexivity.
  - intros Hl Hmax.
    assert (Hfit : level + Z.of_nat (Z.to_nat (maxLevel - level)) <= 2 ^ 30) by lia.
    exists (browse_levels w (Z.to_nat (maxLevel - level)) root level).1.
    split; [|split].
    + rewrite (browse_levels_in_range w _ root level) by lia. reflexivity.
    + intros n. split.
      * intros Hin. apply (browsed_within w _ root level n (proj1 Hl) Hfit Hin).
      * intros Hwithin. revert Hfit.
        replace (Z.to_nat (maxLevel - level))
          with (S (Z.to_nat (maxLevel - level) - 1)) by lia.
        intros Hfit. apply within_browsed; [lia|exact Hfit|].
        replace (S (Z.to_nat (maxLevel - level) - 1) - 1)%nat
          with (Z.to_nat (maxLevel - level) - 1)%nat by lia.
        exact Hwithin.
    + intros ->. replace (Z.to_nat (level + 1 - level)) with 1%nat by lia.
      rewrite browse_levels_in_range by lia. cbn [fst].
      destruct (w root) as [references|status|e]; cbn.
      * f_equal. induction references as [|r rs IH]; [reflexivity|exact IH].
      * reflexivity.
      * reflexivity.
  - intros Hneg Hl.
    replace (Z.to_nat (maxLevel - level))
      with (S (Z.to_nat (maxLevel - level) - 1)) by lia.
    cbn [browse_levels].
    replace (UA.is_int32 (level * 2)) with true.
    + cbn [negb]. destruct (Z.ltb_spec (level * 2) 0); [reflexivity|lia].
    + symmetry. unfold UA.is_int32, UA.INT32_MIN, UA.INT32_MAX.
      apply andb_true_iff. split; apply Z.leb_le; lia.
  - intros Hout Hl.
    replace (Z.to_nat (maxLevel - level))
      with (S (Z.to_nat (maxLevel - level) - 1)) by lia.
    cbn [browse_levels].
    replace (UA.is_int32 (level * 2)) with false; [reflexivity|].
    symmetry. unfold UA.is_int32, UA.INT32_MIN, UA.INT32_MAX.
    apply andb_false_iff.
    destruct Hout; [left|right]; apply Z.leb_gt; lia.
Qed.

(** X12 on a node that refers to itself: at the limit, from level 0
    with [maxLevel] 2, from level -1, and from the least [int]. *)
Lemma browse_depth_limit_witness :
  let root := UA.NodeIdNumeric 0 85 in
  let w : Server := fun _ =>
    browse_ok [{| browseName := "Objects"; nodeId := UA.NodeIdNumeric 0 85 |}] in
  browseNodeRecursively w root 2 2 = ([], returned)
  /\ (exists out,
        browseNodeRecursively w root 0 2 = (out, returned)
        /\ (forall n, services_browse n ∈ out
                      <-> within w (Z.to_nat (2 - 0) - 1) root n)
        /\ (2 = 0 + 1 -> List.filter is_browse out = [services_browse root]))
  /\ browseNodeRecursively w root (-1) 2 = ([], thrown length_error)
  /\ browseNodeRecursively w root UA.INT32_MIN 3 = ([], undefined).
Proof.
  intros root w.
  split; [|split; [|split]].
  - apply (proj1 (browse_depth_limit w root 2 2)). lia.
  - apply (proj1 (proj2 (browse_depth_limit w root 0 2))); lia.
  - apply (proj1 (proj2 (proj2 (browse_depth_limit w root (-1) 2)))); lia.
  - apply (proj2 (proj2 (proj2 (browse_depth_limit w root UA.INT32_MIN 3))));
      unfold UA.INT32_MIN; lia.
Defined.

Lemma browse_count_app (a b : list output) :
  browse_count (a ++ b) = (browse_count a + browse_count b)%nat.
Proof. unfold browse_count. rewrite List.filter_app, length_app. reflexivity. Qed.

Lemma browse_count_flat_map {A} (f : A -> list output) (l : list A) (m : nat) :
  (forall x, x ∈ l -> (browse_count (f x) <= m)%nat) ->
  (browse_count (flat_map f l) <= length l * m)%nat.
Proof.
  induction l as [|x l IH]; intros Hm; [cbn; lia|].
  cbn [flat_map length]. rewrite browse_count_app.
  pose proof (Hm x (list_elem_of_here _ _)).
  assert (browse_count (flat_map f l) <= length l * m)%nat
    by (apply IH; intros y Hy; apply Hm, list_elem_of_further, Hy).
  lia.
Qed.

Lemma browse_levels_count (w : Server) (b : nat) (depth : nat)
    (node : UA.NodeId) (level : Z) :
  0 <= level -> level + Z.of_nat depth <= 2 ^ 30 ->
  (forall n references, w n = browse_ok references -> (length references <= b)%nat) ->
  (browse_count (browse_levels w depth node level).1 <= tree_size b depth)%nat.
Proof.
  intros Hl Hmax Hb. revert node level Hl Hmax.
  induction depth as [|depth IH]; intros node level Hl Hmax; [cbn; lia|].
  rewrite browse_levels_in_range by assumption. cbn [fst tree_size].
  change (browse_count (services_browse node :: ?l)) with (S (browse_count l)).
  apply le_n_S.
  destruct (w node) as [references|status|e] eqn:Hw.
  - change (browse_count (found_references ?i ?c :: ?l)) with (browse_count l).
    etransitivity.
    + apply (browse_count_flat_map _ _ (tree_size b depth)).
      intros r _.
      change (browse_count (reference_line ?i ?n ?s :: ?l)) with (browse_count l).
      apply IH; lia.
    + apply Nat.mul_le_mono_r. exact (Hb _ _ Hw).
  - cbn. lia.
  - cbn. lia.
Qed.

(** X13.  The number of browse calls is bounded by the tree size.
    When no node has more than [b] references, a call from a level that
    is not negative, with a [maxLevel] of at most 2^30, returns after
    at most [1 + b + ... + b^(d-1)] calls of [services::browse], where
    [d] is the number of levels left, [maxLevel - level]. *)
Theorem browse_calls_bounded (w : Server) (b : nat) (root : UA.NodeId)
    (level maxLevel : Z) :
  0 <= level -> maxLevel <= 2 ^ 30 ->
  (forall n references, w n = browse_ok references -> (length references <= b)%nat) ->
  exists out,
    browseNodeRecursively w root level maxLevel = (out, returned)
    /\ (browse_count out <= tree_size b (Z.to_nat (maxLevel - level)))%nat.
Proof.
  intros Hl Hmax Hb. unfold browseNodeRecursively.
  destruct (Z.le_gt_cases maxLevel level) as [Hdone|Hbelow].
  { replace (Z.to_nat (maxLevel - level)) with O by lia.
    exists []. split; [reflexivity|]. cbn. lia. }
  assert (Hfit : level + Z.of_nat (Z.to_nat (maxLevel - level)) <= 2 ^ 30) by lia.
  exists (browse_levels w (Z.to_nat (maxLevel - level)) root level).1. split.
  - rewrite (browse_levels_in_range w _ root level) by assumption. reflexivity.
  - apply browse_levels_count; assumption.
Qed.

(** X13 on a node that refers to itself, three levels deep. *)
Lemma browse_calls_bounded_witness :
  let root := UA.NodeIdNumeric 0 85 in
  let w : Server := fun _ =>
    browse_ok [{| browseName := "Objects"; nodeId := UA.NodeIdNumeric 0 85 |}] in
  exists out,
    browseNodeRecursively w root 0 3 = (out, returned)
    /\ (browse_count out <= tree_size 1 (Z.to_nat (3 - 0)))%nat.
Proof.
  intros root w.
  apply (browse_calls_bounded w 1 root 0 3); [lia|lia|].
  intros n references Hw. injection Hw as <-. cbn. lia.
Defined.





End ClientBrowseSpec.

(** ** The server discovery of client_find_servers *)

Module ClientFindServersSpec.
Import ClientFindServers.

Lemma ApplicationType_cases (a : Z) :
  a = 0 \/ a = 1 \/ a = 2 \/ a = 3
  \/ (~ 0 <= a <= 3 /\ toString_ApplicationType a = "未知类型").
Proof.
  destruct a as [|p|p].
  - left. reflexivity.
  - destruct p as [[p|p|]|[p|p|]|]; first
      [ right; left; reflexivity
      | right; right; left; reflexivity
      | right; right; right; left; reflexivity
      | right; right; right; right; split; [lia|reflexivity] ].
  - right; right; right; right. split; [lia|reflexivity].
Qed.

Lemma MessageSecurityMode_cases (a : Z) :
  a = 0 \/ a = 1 \/ a = 2 \/ a = 3
  \/ (~ 0 <= a <= 3 /\ toString_MessageSecurityMode a = "无效的安全模式").
Proof.
  destruct a as [|p|p].
  - left. reflexivity.
  - destruct p as [[p|p|]|[p|p|]|]; first
      [ right; left; reflexivity
      | right; right; left; reflexivity
      | right; right; right; left; reflexivity
      | right; right; right; right; split; [lia|reflexivity] ].
  - right; right; right; right. split; [lia|reflexivity].
Qed.

(** X15.  The labels identify the value.  For the application type and
    for the security mode alike, two values get the same label exactly
    when they are equal or both lie outside the four named enumerators,
    which all share the fallback label; no named enumerator shares its
    label with another one or with the fallback. *)
Theorem labels_identify (a b : Z) :
  (toString_ApplicationType a = toString_ApplicationType b
   <-> a = b \/ (~ 0 <= a <= 3 /\ ~ 0 <= b <= 3))
  /\ (toString_MessageSecurityMode a = toString_MessageSecurityMode b
      <-> a = b \/ (~ 0 <= a <= 3 /\ ~ 0 <= b <= 3)).
Proof.
  split.
  - destruct (ApplicationType_cases a) as [->|[->|[->|[->|[Ha Hla]]]]];
      destruct (ApplicationType_cases b) as [->|[->|[->|[->|[Hb Hlb]]]]];
      rewrite ?Hla, ?Hlb;
      (split; [intros Heq; first [ left; reflexivity | discriminate Heq
                                 | right; split; assumption ]
              |intros [Heq|[Hx Hy]];
               first [ reflexivity | subst; rewrite ?Hla, ?Hlb; reflexivity
                     | exfalso; lia ]]).
  - destruct (MessageSecurityMode_cases a) as [->|[->|[->|[->|[Ha Hla]]]]];
      destruct (MessageSecurityMode_cases b) as [->|[->|[->|[->|[Hb Hlb]]]]];
      rewrite ?Hla, ?Hlb;
      (split; [intros Heq; first [ left; reflexivity | discriminate Heq
                                 | right; split; assumption ]
              |intros [Heq|[Hx Hy]];
               first [ reflexivity | subst; rewrite ?Hla, ?Hlb; reflexivity
                     | exfalso; lia ]]).
Qed.

Lemma last_app_Some {A} (a b : list A) (x : A) :
  last b = Some x -> last (a ++ b) = Some x.
Proof. intros Hb. rewrite last_app, Hb. reflexivity. Qed.

Lemma last_cons_Some {A} (a : A) (b : list A) (x : A) :
  last b = Some x -> last (a :: b) = Some x.
Proof. intros Hb. rewrite last_cons, Hb. reflexivity. Qed.

Ltac last_event H :=
  repeat first [ exact H | apply last_cons_Some | apply last_app_Some ].

Lemma calls_cons (e : event) (l : list event) :
  getEndpoints_calls (e :: l)
  = match is_getEndpoints e with
    | Some url => url :: getEndpoints_calls l
    | None => getEndpoints_calls l
    end.
Proof. reflexivity. Qed.

Lemma calls_app (a b : list event) :
  getEndpoints_calls (a ++ b) = getEndpoints_calls a ++ getEndpoints_calls b.
Proof. apply omap_app. Qed.

Lemma headers_cons (e : event) (l : list event) :
  server_headers (e :: l)
  = match is_ServerHeader e with
    | Some i => i :: server_headers l
    | None => server_headers l
    end.
Proof. reflexivity. Qed.

Lemma headers_app (a b : list event) :
  server_headers (a ++ b) = server_headers a ++ server_headers b.
Proof. apply omap_app. Qed.

Ltac count_events :=
  repeat first [ rewrite calls_app | rewrite headers_app
               | rewrite calls_cons | rewrite headers_cons ];
  cbn [is_getEndpoints is_ServerHeader].

Lemma printed_tokens (tokens : list string) :
  getEndpoints_calls (map (fun policyId => cout (Token policyId)) tokens) = []
  /\ server_headers (map (fun policyId => cout (Token policyId)) tokens) = [].
Proof. induction tokens as [|t ts [IH1 IH2]]; split; try reflexivity; assumption. Qed.

Lemma printed_endpoint (i : nat) (endpoint : EndpointDescription) :
  getEndpoints_calls (print_endpoint i endpoint) = []
  /\ server_headers (print_endpoint i endpoint) = [].
Proof.
  unfold print_endpoint. rewrite calls_app, headers_app.
  destruct (userIdentityTokens endpoint) as [|t ts]; [split; reflexivity|].
  destruct (printed_tokens (t :: ts)) as [-> ->]. split; reflexivity.
Qed.

Lemma printed_endpoints (i : nat) (endpoints : list EndpointDescription) :
  getEndpoints_calls (print_endpoints i endpoints) = []
  /\ server_headers (print_endpoints i endpoints) = [].
Proof.
  revert i. induction endpoints as [|ep eps IH]; intros i; [split; reflexivity|].
  cbn [print_endpoints]. rewrite calls_app, headers_app.
  destruct (printed_endpoint i ep) as [-> ->].
  destruct (IH (S i)) as [-> ->]. split; reflexivity.
Qed.

Lemma printed_urls (urls : list string) :
  getEndpoints_calls (map (fun url => cout (DiscoveryUrl url)) urls) = []
  /\ server_headers (map (fun url => cout (DiscoveryUrl url)) urls) = [].
Proof. induction urls as [|u us [IH1 IH2]]; split; try reflexivity; assumption. Qed.

(** The loop over the discovery URLs calls [getEndpoints] for the URLs
    in order and stops at the first call that throws. *)
Lemma fetch_endpoints_calls (w : World) (urls : list string) :
  server_headers (fetch_endpoints w urls).1 = []
  /\ match (fetch_endpoints w urls).2 with
     | None => getEndpoints_calls (fetch_endpoints w urls).1 = urls
     | Some e =>
         (exists rest, urls = getEndpoints_calls (fetch_endpoints w urls).1 ++ rest)
         /\ stopped_at w (fetch_endpoints w urls).1 e
     end.
Proof.
  induction urls as [|url rest [IHh IHc]]; [split; reflexivity|].
  cbn [fetch_endpoints].
  destruct (getEndpoints w url) as [e|endpoints] eqn:Hw.
  - cbn. split; [reflexivity|]. split.
    + exists rest. reflexivity.
    + exists url. split; [reflexivity|exact Hw].
  - destruct (fetch_endpoints w rest) as [later e'] eqn:Hrest.
    cbn [fst snd] in *.
    destruct (printed_endpoints 0 endpoints) as [Hp1 Hp2].
    count_events. rewrite Hp1, Hp2, IHh.
    split; [reflexivity|]. cbn [app].
    destruct e' as [e'|].
    + destruct IHc as [[k Hk] (u & Hlast & Hu)]. split.
      * exists k. rewrite Hk at 1. reflexivity.
      * exists u. split; [|exact Hu]. last_event Hlast.
    + rewrite IHc. reflexivity.
Qed.

Lemma print_server_calls (w : World) (i : nat) (server : ApplicationDescription) :
  server_headers (print_server w i server).1 = [i]
  /\ match (print_server w i server).2 with
     | None => getEndpoints_calls (print_server w i server).1 = discoveryUrls server
     | Some e =>
         (exists rest,
             discoveryUrls server
             = getEndpoints_calls (print_server w i server).1 ++ rest)
         /\ stopped_at w (print_server w i server).1 e
     end.
Proof.
  unfold print_server.
  destruct (discoveryUrls server) as [|url urls] eqn:Hurls; [split; reflexivity|].
  destruct (fetch_endpoints_calls w (url :: urls)) as [Hh Hc].
  destruct (printed_urls (url :: urls)) as [Hu1 Hu2].
  destruct (fetch_endpoints w (url :: urls)) as [fetched e] eqn:Hf.
  cbn [fst snd] in *.
  rewrite !calls_app, !headers_app, Hu1, Hu2, Hh.
  split; [reflexivity|].
  change (getEndpoints_calls [cout FetchingEndpoints]) with (@nil string).
  match goal with
  | |- context [getEndpoints_calls (?c1 :: ?c2 :: ?c3 :: ?c4 :: ?c5 :: [?c6])] =>
      change (getEndpoints_calls (c1 :: c2 :: c3 :: c4 :: c5 :: [c6]))
        with (@nil string)
  end.
  cbn [app].
  destruct e as [e|]; [|exact Hc].
  destruct Hc as [Hk (u & Hlast & Hu)]. split; [exact Hk|].
  exists u. split; [|exact Hu]. last_event Hlast.
Qed.

Lemma print_servers_calls (w : World) (i : nat) (servers : list ApplicationDescription) :
  match (print_servers w i servers).2 with
  | None =>
      getEndpoints_calls (print_servers w i servers).1
      = concat (map discoveryUrls servers)
      /\ server_headers (print_servers w i servers).1 = seq i (length servers)
  | Some e =>
      (exists rest,
          concat (map discoveryUrls servers)
          = getEndpoints_calls (print_servers w i servers).1 ++ rest)
      /\ stopped_at w (print_servers w i servers).1 e
  end.
Proof.
  revert i. induction servers as [|server rest IH]; intros i; [split; reflexivity|].
  cbn [print_servers map concat length seq].
  destruct (print_server_calls w i server) as [Hh Hc].
  destruct (print_server w i server) as [events e] eqn:Hs. cbn [fst snd] in *.
  destruct e as [e|].
  - cbn [fst snd]. destruct Hc as [[k Hk] Hstop]. split; [|exact Hstop].
    exists (k ++ concat (map discoveryUrls rest)).
    rewrite Hk, app_assoc. reflexivity.
  - specialize (IH (S i)).
    destruct (print_servers w (S i) rest) as [later e'] eqn:Hr. cbn [fst snd] in *.
    rewrite ?calls_app, ?headers_app, Hc, ?Hh.
    destruct e' as [e'|].
    + destruct IH as [[k Hk] (u & Hlast & Hu)]. split.
      * exists k. rewrite Hk, app_assoc. reflexivity.
      * exists u. split; [last_event Hlast|exact Hu].
    + destruct IH as [IH1 IH2]. rewrite IH1, IH2. split; reflexivity.
Qed.

(** X16.  One [getEndpoints] call per discovery URL.  When
    [findServers] returns, the program calls [getEndpoints] for the
    discovery URLs of the servers found, in the order found, each URL
    once.  If every call returns, the program returns 0, all URLs were
    asked, and the servers were numbered 0, 1, 2, ... in that order.
    If a call throws, nothing catches the exception: the program ends
    with that call, the URLs asked so far being an initial part of the
    list. *)
Theorem endpoints_per_discovery_url (w : World) (servers : list ApplicationDescription) :
  findServers w searchAddress = inr servers ->
  let urls := concat (map discoveryUrls servers) in
  match (main w).2 with
  | returned code =>
      code = 0
      /\ getEndpoints_calls (main w).1 = urls
      /\ server_headers (main w).1 = seq 0 (length servers)
  | uncaught e =>
      (exists rest, urls = getEndpoints_calls (main w).1 ++ rest)
      /\ stopped_at w (main w).1 e
  end.
Proof.
  intros Hw urls. unfold main. rewrite Hw.
  pose proof (print_servers_calls w 0 servers) as Hs.
  destruct (print_servers w 0 servers) as [events e] eqn:Hp. cbn [fst snd] in *.
  destruct e as [e|]; cbn [fst snd].
  - destruct Hs as [[k Hk] (u & Hlast & Hu)]. split.
    + exists k. rewrite !calls_app. exact Hk.
    + exists u. split; [|exact Hu]. last_event Hlast.
  - destruct Hs as [Hc Hh]. split; [reflexivity|].
    rewrite !calls_app, !headers_app, Hc, Hh.
    destruct servers; cbn; rewrite ?app_nil_r; split; reflexivity.
Qed.

(** X16 with one server that gives two discovery URLs, the second of
    which refuses the request. *)
Lemma endpoints_per_discovery_url_witness :
  let server := {| applicationName := "demo"; applicationUri := "urn:demo";
                   productUri := "urn:product"; applicationType := 0;
                   discoveryUrls := ["opc.tcp://a:4840"; "opc.tcp://b:4840"] |} in
  let w := {| findServers := fun _ => inr [server];
              getEndpoints := fun url =>
                if String.eqb url "opc.tcp://a:4840" then inr []
                else inl (UA.BadStatus 0x80AC0000) |} in
  (exists rest,
      ["opc.tcp://a:4840"; "opc.tcp://b:4840"]
      = getEndpoints_calls (main w).1 ++ rest)
  /\ stopped_at w (main w).1 (UA.BadStatus 0x80AC0000).
Proof.
  intros server w.
  exact (endpoints_per_discovery_url w [server] eq_refl).
Defined.

End ClientFindServersSpec.

(** ** The demo client *)

Module ClientDemoSpec.
Import ClientDemo.

Lemma to_int_inr (v : UA.Variant) (z : Z) : to_int v = inr z <-> v = UA.VInt32 z.
Proof.
  destruct v; cbn; split; intros Heq; try discriminate Heq;
    injection Heq as ->; reflexivity.
Qed.

Ltac member_of :=
  solve [ repeat first [ apply list_elem_of_here | apply list_elem_of_further ] ].

(** X17.  The demo client stops at the first failure and writes only
    after it has read an int.  The exit code is 0 or 1; it is 0 exactly
    when [connect] returned, the first read returned an Int32 value,
    the write of 123 returned and the second read returned an Int32
    value.  The node is written only with the Int32 value 123, and only
    if [connect] returned and the first read returned an Int32 value:
    a node holding anything else is left as it is.  On exit code 1 the
    last thing done is the report of the exception on the error
    stream. *)
Theorem demo_stops_at_first_failure (w : World) :
  let events := (main w).1 in
  let code := (main w).2 in
  (code = 0 \/ code = 1)
  /\ (code = 0
      <-> connect w url = None
          /\ (exists z, readValue_first w = inr (UA.VInt32 z))
          /\ writeValue w (UA.VInt32 123) = None
          /\ (exists z, readValue_second w = inr (UA.VInt32 z)))
  /\ (forall v, Node_writeValue node v ∈ events ->
        v = UA.VInt32 123
        /\ connect w url = None
        /\ exists z, readValue_first w = inr (UA.VInt32 z))
  /\ (code = 1 -> exists e, last events = Some (cerr_exception e)).
Proof.
  intros events code. subst events code. unfold main, caught.
  destruct (connect w url) as [e0|].
  { cbn. split; [right; reflexivity|]. split; [|split].
    - split; [intros H; discriminate H|intros [H _]; discriminate H].
    - intros v Hin. exfalso. decompose_list_elem_of; discriminate.
    - intros _. eexists. reflexivity. }
  destruct (readValue_first w) as [e1|v1].
  { cbn. split; [right; reflexivity|]. split; [|split].
    - split; [intros H; discriminate H|intros (_ & [z H] & _); discriminate H].
    - intros v Hin. exfalso. decompose_list_elem_of; discriminate.
    - intros _. eexists. reflexivity. }
  destruct (to_int v1) as [e2|current] eqn:Hv1.
  { cbn. split; [right; reflexivity|]. split; [|split].
    - split; [intros H; discriminate H|].
      intros (_ & [z H] & _). injection H as ->. discriminate Hv1.
    - intros v Hin. exfalso. decompose_list_elem_of; discriminate.
    - intros _. eexists. reflexivity. }
  apply to_int_inr in Hv1 as ->.
  destruct (writeValue w (UA.VInt32 123)) as [e3|].
  { cbn. split; [right; reflexivity|]. split; [|split].
    - split; [intros H; discriminate H|intros (_ & _ & H & _); discriminate H].
    - intros v Hin. decompose_list_elem_of; try discriminate.
      match goal with
      | Heq : Node_writeValue _ _ = Node_writeValue _ _ |- _ => injection Heq as ->
      end.
      split; [reflexivity|]. split; [reflexivity|]. exists current. reflexivity.
    - intros _. eexists. reflexivity. }
  destruct (readValue_second w) as [e4|v2].
  { cbn. split; [right; reflexivity|]. split; [|split].
    - split; [intros H; discriminate H|intros (_ & _ & _ & [z H]); discriminate H].
    - intros v Hin. decompose_list_elem_of; try discriminate.
      match goal with
      | Heq : Node_writeValue _ _ = Node_writeValue _ _ |- _ => injection Heq as ->
      end.
      split; [reflexivity|]. split; [reflexivity|]. exists current. reflexivity.
    - intros _. eexists. reflexivity. }
  destruct (to_int v2) as [e5|back] eqn:Hv2.
  { cbn. split; [right; reflexivity|]. split; [|split].
    - split; [intros H; discriminate H|].
      intros (_ & _ & _ & [z H]). injection H as ->. discriminate Hv2.
    - intros v Hin. decompose_list_elem_of; try discriminate.
      match goal with
      | Heq : Node_writeValue _ _ = Node_writeValue _ _ |- _ => injection Heq as ->
      end.
      split; [reflexivity|]. split; [reflexivity|]. exists current. reflexivity.
    - intros _. eexists. reflexivity. }
  apply to_int_inr in Hv2 as ->.
  cbn. split; [left; reflexivity|]. split; [|split].
  - split; [intros _|reflexivity].
    split; [reflexivity|]. split; [exists current; reflexivity|].
    split; [reflexivity|exists back; reflexivity].
  - intros v Hin. decompose_list_elem_of; try discriminate.
    match goal with
    | Heq : Node_writeValue _ _ = Node_writeValue _ _ |- _ => injection Heq as ->
    end.
    split; [reflexivity|]. split; [reflexivity|]. exists current. reflexivity.
  - intros H. discriminate H.
Qed.

(** X17 against a node that holds a string. *)
Lemma demo_stops_at_first_failure_witness :
  let w := {| connect := fun _ => None;
              readValue_first := inr (UA.VString "forty-two");
              writeValue := fun _ => None;
              readValue_second := inr (UA.VInt32 123) |} in
  (forall v, Node_writeValue node v ∈ (main w).1 ->
     v = UA.VInt32 123
     /\ connect w url = None
     /\ exists z, readValue_first w = inr (UA.VInt32 z))
  /\ exists e, last (main w).1 = Some (cerr_exception e).
Proof.
  intros w. split.
  - exact (proj1 (proj2 (proj2 (demo_stops_at_first_failure w)))).
  - exact (proj2 (proj2 (proj2 (demo_stops_at_first_failure w))) eq_refl).
Defined.

End ClientDemoSpec.

(** ** The log lines of server_logger *)

Module ServerLoggerSpec.
Import Stdlib.Strings.Ascii ServerLogger.

Lemma append_head (c : Ascii.ascii) (s r : string) :
  String c s +:+ r = String c (s +:+ r).
Proof. reflexivity. Qed.

Lemma append_empty (r : string) : EmptyString +:+ r = r.
Proof. reflexivity. Qed.

(** A bracket-free text is delimited by the first closing bracket. *)
Lemma bracket_delimits (a b x y : string) :
  bracket_free a = true -> bracket_free b = true ->
  a +:+ String "]"%char x = b +:+ String "]"%char y ->
  a = b /\ x = y.
Proof.
  revert b. induction a as [|c a IH]; intros b Ha Hb Heq.
  - destruct b as [|d b].
    + rewrite !append_empty in Heq. injection Heq as ->. split; reflexivity.
    + rewrite append_empty, append_head in Heq. injection Heq as <- _.
      cbn in Hb. discriminate Hb.
  - destruct b as [|d b].
    + rewrite append_empty, append_head in Heq. injection Heq as -> _.
      cbn in Ha. discriminate Ha.
    + rewrite !append_head in Heq. injection Heq as -> Heq.
      cbn in Ha, Hb. apply andb_true_iff in Ha as [_ Ha], Hb as [_ Hb].
      destruct (IH b Ha Hb Heq) as [-> ->]. split; reflexivity.
Qed.

Lemma level_labels_bracket_free (level : LogLevel) :
  bracket_free (toString_LogLevel level) = true.
Proof. destruct level; reflexivity. Qed.

Lemma category_labels_bracket_free (category : LogCategory) :
  bracket_free (toString_LogCategory category) = true.
Proof. destruct category; reflexivity. Qed.

(** X18.  A log line can be read back.  Two calls of the logger write
    the same line exactly when they agree on the label of the level, on
    the label of the category and on the message: the level label is
    the text up to the first closing bracket, whatever the message
    contains.  The labels in turn tell the named levels and categories
    apart; only values outside the named enumerators share the label
    "unknown". *)
Theorem log_line_reads_back (l1 l2 : LogLevel) (c1 c2 : LogCategory) (m1 m2 : string) :
  (logger l1 c1 m1 = logger l2 c2 m2
   <-> toString_LogLevel l1 = toString_LogLevel l2
       /\ toString_LogCategory c1 = toString_LogCategory c2
       /\ m1 = m2)
  /\ (toString_LogLevel l1 = toString_LogLevel l2
      <-> l1 = l2 \/ exists v1 v2, l1 = LogLevel_other v1 /\ l2 = LogLevel_other v2)
  /\ (toString_LogCategory c1 = toString_LogCategory c2
      <-> c1 = c2
          \/ exists v1 v2, c1 = LogCategory_other v1 /\ c2 = LogCategory_other v2).
Proof.
  split; [|split].
  - split.
    + unfold logger. rewrite !append_head, !append_empty.
      intros Heq. injection Heq as Heq.
      apply bracket_delimits in Heq as [HL Heq];
        try apply level_labels_bracket_free.
      injection Heq as Heq.
      apply bracket_delimits in Heq as [HC Heq];
        try apply category_labels_bracket_free.
      injection Heq as Heq.
      repeat split; assumption.
    + intros (HL & HC & ->). unfold logger. rewrite HL, HC. reflexivity.
  - split.
    + destruct l1, l2; cbn; intros Heq; try discriminate Heq;
        first [ left; reflexivity | right; eexists _, _; split; reflexivity ].
    + intros [->|(v1 & v2 & -> & ->)]; reflexivity.
  - split.
    + destruct c1, c2; cbn; intros Heq; try discriminate Heq;
        first [ left; reflexivity | right; eexists _, _; split; reflexivity ].
    + intros [->|(v1 & v2 & -> & ->)]; reflexivity.
Qed.

End ServerLoggerSpec.
